(** * Pattern parsing (lib/Parse/ParsePattern.cpp)

    A shallow embedding of the recursive-descent pattern parser: the token
    cursor and the diagnostic sink form the parser state, every parsing
    routine is a state transformer over it, and the syntax tree is an
    inductive type.  The routines follow ParsePattern.cpp line by line;
    whatever that file only calls (the token cursor, the list helper, the
    expression and type parsers, the accessors of the tree) is either a
    parameter of the development or a definition marked as modelled. *)

From stdpp Require Import gmap strings list.

Open Scope string_scope.
Open Scope list_scope.
Open Scope stdpp_scope.

(** ** Tokens, locations, diagnostics *)

(** A SourceLoc is an offset into the buffer; [NoLoc] is the default
    constructed, invalid location [SourceLoc()]. *)
Definition SourceLoc := nat.
Definition NoLoc : SourceLoc := 0.
Definition SourceRange := (SourceLoc * SourceLoc)%type.

(** The token kinds this file inspects.  [kw_ k] stands for the kinds
    [tok::kw_##k] that Tokens.def lists under IDENTIFIER_KEYWORD; every
    kind the file never names is an [tok_other]. *)
Inductive tok : Type :=
| eof | identifier | l_paren | r_paren | colon | equal | comma | ellipsis
| arrow
| kw_ (kw : string)
| tok_other (n : nat).

#[global] Instance tok_eq_dec : EqDecision tok.
Proof. solve_decision. Defined.

Record Token : Type := mkToken {
  getKind : tok;
  getText : string;
  getTokLoc : SourceLoc
}.

Definition Token_is (t : Token) (k : tok) : bool := bool_decide (getKind t = k).
Definition Token_isNot (t : Token) (k : tok) : bool := negb (Token_is t k).

Inductive DiagID : Type :=
| func_selector_without_paren
| func_selector_with_not_one_argument
| func_selector_with_curry
| expected_initializer_expr
| expected_rparen_tuple_pattern_list
| expected_pattern_is_keyword
| expected_pattern
| non_func_decl_pattern_init
| tuple_ellipsis_init
| untyped_pattern_ellipsis
| ellipsis_pattern_not_at_end.

Definition Identifier := string.

(** [new (Context) VarDecl(loc, ident, Type(), nullptr)]: the type slot and
    the declaration context are left empty by this file, so a binding is
    its location and its identifier. *)
Record VarDecl : Type := mkVarDecl {
  VarDecl_getLoc : SourceLoc;
  VarDecl_getName : Identifier
}.

(** What the diagnostic sink records.  Highlighted ranges are presentation
    only and are not recorded. *)
Inductive Diagnostic : Type :=
| Diag (loc : SourceLoc) (id : DiagID)
| Redefinition (prev new : VarDecl).

(** The part of the Parser object this file reads and writes: the token
    cursor (the current token [Tok] is the head of [Toks]) and the
    diagnostics emitted so far, oldest first. *)
Record Parser : Type := mkParser {
  Toks : list Token;
  Diags : list Diagnostic
}.

Definition eofToken : Token := mkToken eof "" NoLoc.

Definition Tok (P : Parser) : Token :=
  match Toks P with
  | t :: _ => t
  | [] => eofToken
  end.

(** ** The parsing monad

    A routine either returns a value and the next parser state, or the
    model ran out of fuel, or the routine hit an assertion or an
    [llvm_unreachable]. *)
Inductive Outcome (A : Type) : Type :=
| Done (a : A) (P : Parser)
| OutOfFuel
| Unreachable.
Arguments Done {A} a P.
Arguments OutOfFuel {A}.
Arguments Unreachable {A}.

Definition M (A : Type) : Type := Parser -> Outcome A.

Definition ret {A} (a : A) : M A := fun P => Done a P.

Definition bind {A B} (c : M A) (k : A -> M B) : M B :=
  fun P =>
    match c P with
    | Done a P' => k a P'
    | OutOfFuel => OutOfFuel
    | Unreachable => Unreachable
    end.

Declare Scope parse_scope.
Delimit Scope parse_scope with parse.
Notation "x <- c ;; k" := (bind c (fun x => k))
  (at level 62, c at next level, right associativity) : parse_scope.
Notation "c ;;; k" := (bind c (fun _ => k))
  (at level 62, right associativity) : parse_scope.
Open Scope parse_scope.

(** An external sub-parser is a total function on the parser state. *)
Definition ext {A} (f : Parser -> A * Parser) : M A :=
  fun P => let (a, P') := f P in Done a P'.

Definition unreachable {A} : M A := fun _ => Unreachable.
Definition outOfFuel {A} : M A := fun _ => OutOfFuel.

(** ** Token cursor and diagnostic sink *)

Definition getTok : M Token := fun P => Done (Tok P) P.

(** The cursor moved over the current token, and the sink with one more
    record. *)
Definition advance (P : Parser) : Parser := mkParser (tail (Toks P)) (Diags P).
Definition emit (d : Diagnostic) (P : Parser) : Parser :=
  mkParser (Toks P) (Diags P ++ [d]).

(** Modelled from the spec: Parser::consumeToken (Parser.cpp is absent):
    [consume() -> Location], advance by one token and return the location
    of the token consumed; the cursor stays on the end of the input. *)
Definition consumeToken : M SourceLoc :=
  fun P => Done (getTokLoc (Tok P)) (advance P).

(** Modelled from the spec: Parser::consumeToken(tok) (Parser.h is absent):
    the overload that asserts the kind of the current token. *)
Definition consumeTokenK (k : tok) : M SourceLoc :=
  t <- getTok ;;
  if Token_is t k then consumeToken else unreachable.

(** Modelled from the spec: Parser::consumeIf (Parser.h is absent):
    [consumeIf(kind) -> bool]. *)
Definition consumeIf (k : tok) : M bool :=
  t <- getTok ;;
  if Token_is t k then (consumeToken ;;; ret true) else ret false.

(** Modelled from the spec: Parser::diagnose (Parser.h is absent):
    [emit(location, diagnosticKind)], fire and forget. *)
Definition diagnose (loc : SourceLoc) (id : DiagID) : M unit :=
  fun P => Done tt (emit (Diag loc id) P).

(** Modelled from the spec: Parser::diagnoseRedefinition (Parser.cpp is
    absent): records a redefinition of [prev] by [new]. *)
Definition diagnoseRedefinition (prev new : VarDecl) : M unit :=
  fun P => Done tt (emit (Redefinition prev new) P).

(** Modelled from the spec: Parser::skipUntil (Parser.cpp is absent): the
    [skip-until(kind)] recovery primitive, which advances until the current
    token has that kind or the input ends. *)
Fixpoint skipUntil_toks (k : tok) (ts : list Token) : list Token :=
  match ts with
  | [] => []
  | t :: ts' => if Token_is t k then ts else skipUntil_toks k ts'
  end.

Definition skipUntil (k : tok) : M unit :=
  fun P => Done tt (mkParser (skipUntil_toks k (Toks P)) (Diags P)).

(** Modelled from the spec: Parser::parseList (Parser.cpp is absent): after
    the opening delimiter, "repeatedly parse elements separated by commas
    until `)` or hard failure; a well-formed empty list is valid".  The
    callback reports failure with [true]; [St] is what the callback
    captures by reference.  The result is the Invalid flag, the captured
    state and the location of the closing delimiter. *)
Section ParseList.
Context {St : Type}.
Variables (RightK SeparatorK : tok) (ErrorDiag : DiagID).
Variable callback : St -> M (bool * St).

Fixpoint parseList_loop (fuel : nat) (s : St) : M (bool * St * SourceLoc) :=
  match fuel with
  | 0 => outOfFuel
  | S fuel' =>
      r <- callback s ;;
      let '(Invalid, s') := r in
      if Invalid : bool then ret (true, s', NoLoc)
      else
        t <- getTok ;;
        if Token_is t SeparatorK then
          consumeToken ;;; parseList_loop fuel' s'
        else if Token_is t RightK then
          RightLoc <- consumeToken ;; ret (false, s', RightLoc)
        else
          diagnose (getTokLoc t) ErrorDiag ;;; ret (true, s', NoLoc)
  end.

Definition parseList (fuel : nat) (s : St) : M (bool * St * SourceLoc) :=
  t <- getTok ;;
  if Token_is t RightK then
    RightLoc <- consumeToken ;; ret (false, s, RightLoc)
  else parseList_loop fuel s.

End ParseList.

(** ** The syntax tree *)

(** The expression trees and the types are owned by the expression parser
    and the type checker; [ArraySliceType_get] is [ArraySliceType::get]. *)
Class Sema : Type := {
  Expr : Type;
  Ty : Type;
  ArraySliceType_get : Ty -> Ty
}.

Section AST.
Context {sema : Sema}.

(** [ExprHandle::get(Context, e)] wraps the parsed expression [e]. *)
Definition ExprHandle : Type := Expr.
Definition ExprHandle_get (e : Expr) : ExprHandle := e.

(** A TypeLoc is a type together with the range it was written at.  A
    TypeLoc filled in by a successful type parse holds a type. *)
Record TypeLoc : Type := mkTypeLoc {
  getType : Ty;
  getSourceRange : SourceRange
}.

(** A tuple element: pattern, default initializer (null when absent) and
    vararg base type (null when the element is not variadic). *)
Record TuplePatternElt_ (Pat : Type) : Type := mkTuplePatternElt {
  getPattern : Pat;
  getInit : option ExprHandle;
  getVarargBaseType : option Ty
}.
Arguments mkTuplePatternElt {Pat} _ _ _.
Arguments getPattern {Pat} _.
Arguments getInit {Pat} _.
Arguments getVarargBaseType {Pat} _.

#[warnings="-register-all"]
Inductive Pattern : Type :=
| AnyPattern (loc : SourceLoc)
| NamedPattern (decl : VarDecl)
| TypedPattern (sub : Pattern) (type : TypeLoc)
| ParenPattern (LPLoc : SourceLoc) (sub : Pattern) (RPLoc : SourceLoc)
| TuplePattern (LPLoc : SourceLoc) (fields : list (TuplePatternElt_ Pattern))
    (RPLoc : SourceLoc).

Definition TuplePatternElt : Type := TuplePatternElt_ Pattern.

(** The three constructors of TuplePatternElt that the parser calls. *)
Definition TuplePatternElt1 (p : Pattern) : TuplePatternElt :=
  mkTuplePatternElt p None None.
Definition TuplePatternElt2 (p : Pattern) (init : option ExprHandle)
  : TuplePatternElt := mkTuplePatternElt p init None.
Definition TuplePatternElt3 (p : Pattern) (init : option ExprHandle)
    (varargBaseType : option Ty) : TuplePatternElt :=
  mkTuplePatternElt p init varargBaseType.

(** Modelled from the spec: TuplePatternElt::isVararg (Pattern.h is
    absent): the vararg element type, when present, marks the element as
    variadic. *)
Definition isVararg (e : TuplePatternElt) : bool :=
  match getVarargBaseType e with Some _ => true | None => false end.

(** Modelled from the spec: TuplePatternElt::setVarargBaseType (Pattern.h
    is absent): records the vararg element type. *)
Definition setVarargBaseType (e : TuplePatternElt) (ty : Ty) : TuplePatternElt :=
  mkTuplePatternElt (getPattern e) (getInit e) (Some ty).

(** Modelled from the spec: TuplePatternElt::revertToNonVariadic (Pattern.h
    is absent): demotes a vararg element to non-vararg. *)
Definition revertToNonVariadic (e : TuplePatternElt) : TuplePatternElt :=
  mkTuplePatternElt (getPattern e) (getInit e) None.

Definition NullablePtr (A : Type) : Type := option A.
Definition isNull {A} (p : option A) : bool :=
  match p with None => true | Some _ => false end.

End AST.

Arguments mkTuplePatternElt {sema Pat} _ _ _.
Arguments getPattern {sema Pat} _.
Arguments getInit {sema Pat} _.
Arguments getVarargBaseType {sema Pat} _.

(** ** The collaborators of the parser

    What ParsePattern.cpp calls and neither it nor the spec defines: the
    tree accessors [Pattern::getLoc] and what [Pattern::getBoundName]
    answers on a tuple pattern, and the external sub-parsers (Expression
    Parser, Type-Annotation Parser), for which [None] is the failure
    signal: a null NullablePtr or a [true] return. *)
Class Collaborators {sema : Sema} : Type := {
  getLoc : Pattern -> SourceLoc;
  tupleBoundName : list TuplePatternElt -> Identifier;
  parseExpr : DiagID -> Parser -> option Expr * Parser;
  parseTypeAnnotation : Parser -> option TypeLoc * Parser;
  parseType : Parser -> option TypeLoc * Parser
}.

(** ** The parser *)

Section ParsePattern.
Context {sema : Sema} {collab : Collaborators}.

(** Modelled from the spec: Pattern::getBoundName (Pattern.h is absent):
    Any gives the empty name, Named its binding's identifier, Typed and
    Paren the bound name of the wrapped pattern. *)
Fixpoint getBoundName (p : Pattern) : Identifier :=
  match p with
  | AnyPattern _ => ""
  | NamedPattern decl => VarDecl_getName decl
  | TypedPattern sub _ => getBoundName sub
  | ParenPattern _ sub _ => getBoundName sub
  | TuplePattern _ fields _ => tupleBoundName fields
  end.

Definition Identifier_empty (i : Identifier) : bool := bool_decide (i = "").

(** *** Parser::parsePatternIdentifier (lines 272-286) *)
Definition parsePatternIdentifier : M (NullablePtr Pattern) :=
  t <- getTok ;;
  let loc := getTokLoc t in
  let text := getText t in
  c <- consumeIf identifier ;;
  if c then
    if bool_decide (text = "_") then ret (Some (AnyPattern loc))
    else
      let ident : Identifier := text in
      let var := mkVarDecl loc ident in
      ret (Some (NamedPattern var))
  else ret None.

(** *** Parser::parsePattern (lines 249-264), over the atom parser *)
Definition parsePatternWith (parsePatternAtom : M (NullablePtr Pattern))
  : M (NullablePtr Pattern) :=
  pattern <- parsePatternAtom ;;
  match pattern with
  | None => ret None
  | Some pat =>
      c <- consumeIf colon ;;
      if c then
        type <- ext parseTypeAnnotation ;;
        match type with
        | None => ret None
        | Some type => ret (Some (TypedPattern pat type))
        end
      else ret (Some pat)
  end.

(** *** Parser::parsePatternTupleElement (lines 313-367)

    The routine is the pattern, then the optional initializer (lines
    319-332), then the optional ellipsis (lines 334-366).

    Lines 328-331 read
    [// FIXME: Silently dropping initializer expressions where they aren't
    permitted.] [if (allowInitExpr && initR.isNonNull()) init = ...]: the
    expression is parsed in either context and stored only where it is
    allowed.

    Lines 363-365 assign to the TypeLoc of the TypedPattern node that
    [result] points to.  The node was made by the call of parsePattern just
    above and nothing else refers to it, so the assignment is the element
    with the rewritten node in it. *)
Definition parseOptionalInitializer (allowInitExpr : bool)
  : M (option ExprHandle) :=
  t <- getTok ;;
  if Token_is t equal then
    EqualLoc <- consumeToken ;;
    (if negb allowInitExpr
     then diagnose EqualLoc non_func_decl_pattern_init
     else ret tt) ;;;
    initR <- ext (parseExpr expected_initializer_expr) ;;
    match allowInitExpr, initR with
    | true, Some e => ret (Some (ExprHandle_get e))
    | _, _ => ret None
    end
  else ret None.

Definition parseOptionalEllipsis (pattern : Pattern) (init : option ExprHandle)
  : M (option TuplePatternElt) :=
  let result := TuplePatternElt2 pattern init in
  t <- getTok ;;
  if Token_isNot t ellipsis then ret (Some result)
  else
    match init with
    | Some _ =>
        diagnose (getTokLoc t) tuple_ellipsis_init ;;;
        consumeTokenK ellipsis ;;;
        ret (Some result)
    | None =>
        ellipsisLoc <- consumeTokenK ellipsis ;;
        match getPattern result with
        | TypedPattern sub typeLoc =>
            let subTy := getType typeLoc in
            let result := setVarargBaseType result subTy in
            let typeLoc' :=
              mkTypeLoc (ArraySliceType_get subTy) (getSourceRange typeLoc) in
            ret (Some (mkTuplePatternElt (TypedPattern sub typeLoc')
                         (getInit result) (getVarargBaseType result)))
        | _ =>
            diagnose ellipsisLoc untyped_pattern_ellipsis ;;;
            ret (Some result)
        end
    end.

Definition parsePatternTupleElementWith
    (parsePatternAtom : M (NullablePtr Pattern)) (allowInitExpr : bool)
  : M (option TuplePatternElt) :=
  pattern <- parsePatternWith parsePatternAtom ;;
  match pattern with
  | None => ret None
  | Some pat =>
      init <- parseOptionalInitializer allowInitExpr ;;
      parseOptionalEllipsis pat init
  end.

(** *** Parser::parsePatternTuple (lines 376-418)

    [addTupleElement] is the callback handed to parseList (lines 384-405);
    it captures [elts].  [tupleOrParen] is the final choice between a
    ParenPattern and a TuplePattern (lines 410-417). *)
Definition revertBack (elts : list TuplePatternElt) : list TuplePatternElt :=
  match last elts with
  | Some b => removelast elts ++ [revertToNonVariadic b]
  | None => elts
  end.

Definition addTupleElement (parsePatternAtom : M (NullablePtr Pattern))
    (AllowInitExpr : bool) (elts : list TuplePatternElt)
  : M (bool * list TuplePatternElt) :=
  elt <- parsePatternTupleElementWith parsePatternAtom AllowInitExpr ;;
  match elt with
  | None => ret (true, elts)
  | Some e =>
      elts' <-
        match last elts with
        | Some b =>
            if isVararg b then
              diagnose (getLoc (getPattern b)) ellipsis_pattern_not_at_end ;;;
              ret (revertBack elts)
            else ret elts
        | None => ret elts
        end ;;
      ret (false, elts' ++ [e])
  end.

Definition tupleOrParen (LPLoc : SourceLoc) (elts : list TuplePatternElt)
    (RPLoc : SourceLoc) : Pattern :=
  match elts with
  | [e] =>
      if isNull (getInit e)
         && Identifier_empty (getBoundName (getPattern e))
         && negb (isVararg e)
      then ParenPattern LPLoc (getPattern e) RPLoc
      else TuplePattern LPLoc elts RPLoc
  | _ => TuplePattern LPLoc elts RPLoc
  end.

(** Lines 380-405: the elements, from the empty vector. *)
Definition parseTupleElementsWith (parsePatternAtom : M (NullablePtr Pattern))
    (fuel : nat) (AllowInitExpr : bool)
  : M (bool * list TuplePatternElt * SourceLoc) :=
  parseList r_paren comma expected_rparen_tuple_pattern_list
    (addTupleElement parsePatternAtom AllowInitExpr) fuel [].

Definition parsePatternTupleWith (parsePatternAtom : M (NullablePtr Pattern))
    (fuel : nat) (AllowInitExpr : bool) : M (NullablePtr Pattern) :=
  LPLoc <- consumeTokenK l_paren ;;
  r <- parseTupleElementsWith parsePatternAtom fuel AllowInitExpr ;;
  let '(Invalid, elts, RPLoc) := r in
  if Invalid : bool then ret None
  else ret (Some (tupleOrParen LPLoc elts RPLoc)).

(** *** Parser::parsePatternAtom (lines 293-311)

    Fuel bounds the nesting depth of parenthesised patterns and the number
    of elements of one list. *)
Fixpoint parsePatternAtom (fuel : nat) : M (NullablePtr Pattern) :=
  t <- getTok ;;
  match getKind t with
  | l_paren =>
      match fuel with
      | 0 => outOfFuel
      | S fuel' => parsePatternTupleWith (parsePatternAtom fuel') fuel' false
      end
  | identifier => parsePatternIdentifier
  | kw_ _ =>
      diagnose (getTokLoc t) expected_pattern_is_keyword ;;;
      consumeToken ;;;
      ret None
  | _ =>
      diagnose (getTokLoc t) expected_pattern ;;;
      ret None
  end.

Definition parsePattern (fuel : nat) : M (NullablePtr Pattern) :=
  parsePatternWith (parsePatternAtom fuel).

Definition parsePatternTupleElement (fuel : nat) (allowInitExpr : bool)
  : M (option TuplePatternElt) :=
  parsePatternTupleElementWith (parsePatternAtom fuel) allowInitExpr.

Definition parsePatternTuple (fuel : nat) (AllowInitExpr : bool)
  : M (NullablePtr Pattern) :=
  parsePatternTupleWith (parsePatternAtom fuel) fuel AllowInitExpr.

Definition parseTupleElements (fuel : nat) (AllowInitExpr : bool)
  : M (bool * list TuplePatternElt * SourceLoc) :=
  parseTupleElementsWith (parsePatternAtom fuel) fuel AllowInitExpr.

(** *** Parser::isStartOfPattern (lines 267-269) *)
Definition isStartOfPattern (t : Token) : bool :=
  Token_is t identifier || Token_is t l_paren.

(** *** parseCurriedFunctionArguments (lines 33-49)

    The two output vectors are threaded through; [true] is failure. *)
Fixpoint parseCurriedFunctionArguments (fuel : nat)
    (argP bodyP : list Pattern) : M (bool * list Pattern * list Pattern) :=
  t <- getTok ;;
  if Token_is t l_paren then
    match fuel with
    | 0 => outOfFuel
    | S fuel' =>
        pattern <- parsePatternTuple fuel' true ;;
        match pattern with
        | None => ret (true, argP, bodyP)
        | Some pat =>
            parseCurriedFunctionArguments fuel' (argP ++ [pat]) (bodyP ++ [pat])
        end
    end
  else ret (false, argP, bodyP).

(** *** parseSelectorArgument (lines 51-129)

    The reference parameters: both element lists, the selector-name table
    and the location of the last closing parenthesis. *)
Record SelectorState : Type := mkSelectorState {
  argElts : list TuplePatternElt;
  bodyElts : list TuplePatternElt;
  selectorNames : gmap string VarDecl;
  rp : SourceLoc
}.

Definition setSelectorNames (st : SelectorState) (names : gmap string VarDecl)
  : SelectorState :=
  mkSelectorState (argElts st) (bodyElts st) names (rp st).

(** Lines 63-72: the uniqueness check on the selector name. *)
Definition checkSelectorName (argPattern : Pattern)
    (names : gmap string VarDecl) : M (gmap string VarDecl) :=
  match argPattern with
  | NamedPattern decl =>
      let id := VarDecl_getName decl in
      match names !! id with
      | Some prevName => diagnoseRedefinition prevName decl ;;; ret names
      | None => ret (<[id := decl]> names)
      end
  | _ => ret names
  end.

(** Lines 114-128: the end of the clause; on success one element is
    pushed on each list. *)
Definition parseSelectorArgumentClose (st : SelectorState)
    (argPattern bodyPattern : Pattern) (init : option ExprHandle)
  : M (bool * SelectorState) :=
  t <- getTok ;;
  if Token_is t comma then
    diagnose (getTokLoc t) func_selector_with_not_one_argument ;;;
    skipUntil r_paren ;;;
    ret (true, st)
  else if Token_isNot t r_paren then
    diagnose (getTokLoc t) expected_rparen_tuple_pattern_list ;;;
    ret (true, st)
  else
    rp' <- consumeTokenK r_paren ;;
    ret (false,
         mkSelectorState
           (argElts st ++ [TuplePatternElt2 argPattern init])
           (bodyElts st ++ [TuplePatternElt2 bodyPattern init])
           (selectorNames st) rp').

(** Lines 103-112: the optional initializer of the clause. *)
Definition parseSelectorArgumentInit (st : SelectorState)
    (argPattern bodyPattern : Pattern) : M (bool * SelectorState) :=
  c <- consumeIf equal ;;
  if c : bool then
    initR <- ext (parseExpr expected_initializer_expr) ;;
    match initR with
    | None => skipUntil r_paren ;;; ret (true, st)
    | Some e =>
        parseSelectorArgumentClose st argPattern bodyPattern
          (Some (ExprHandle_get e))
    end
  else parseSelectorArgumentClose st argPattern bodyPattern None.

(** Lines 74-101: the parenthesised part of the clause, after the selector
    name [argPattern] was read and checked. *)
Definition parseSelectorArgumentBody (fuel : nat) (argPattern : Pattern)
    (st : SelectorState) : M (bool * SelectorState) :=
  t <- getTok ;;
  if Token_isNot t l_paren then
    diagnose (getTokLoc t) func_selector_without_paren ;;;
    ret (true, st)
  else
    consumeToken ;;;
    t <- getTok ;;
    if Token_is t r_paren then
      diagnose (getTokLoc t) func_selector_with_not_one_argument ;;;
      ret (true, st)
    else
      bodyPattern <- parsePatternAtom fuel ;;
      match bodyPattern with
      | None => skipUntil r_paren ;;; ret (true, st)
      | Some bodyPattern =>
          c <- consumeIf colon ;;
          if c : bool then
            type <- ext parseTypeAnnotation ;;
            match type with
            | None => skipUntil r_paren ;;; ret (true, st)
            | Some type =>
                parseSelectorArgumentInit st
                  (TypedPattern argPattern type)
                  (TypedPattern bodyPattern type)
            end
          else parseSelectorArgumentInit st argPattern bodyPattern
      end.

Definition parseSelectorArgument (fuel : nat) (st : SelectorState)
  : M (bool * SelectorState) :=
  argPattern <- parsePatternIdentifier ;;
  match argPattern with
  | None => unreachable
  | Some argPattern =>
      names <- checkSelectorName argPattern (selectorNames st) ;;
      parseSelectorArgumentBody fuel argPattern (setSelectorNames st names)
  end.

(** *** getFirstSelectorPattern (lines 131-140) *)
Definition getFirstSelectorPattern (argPattern : Pattern) (loc : SourceLoc)
  : Pattern :=
  let pattern := AnyPattern loc in
  match argPattern with
  | TypedPattern _ typeLoc => TypedPattern pattern typeLoc
  | _ => pattern
  end.

(** *** parseSelectorFunctionArguments (lines 142-196) *)

(** Lines 153-175: the conversion of the first clause.  The result is the
    left parenthesis location and the first argument and body elements;
    [None] after the diagnosed failure. *)
Definition convertFirstPattern (firstPattern : Pattern)
  : M (option (SourceLoc * TuplePatternElt * TuplePatternElt)) :=
  match firstPattern with
  | ParenPattern LPLoc sub _ =>
      let bodyElt := TuplePatternElt1 sub in
      let lp := LPLoc in
      let argElt :=
        TuplePatternElt1 (getFirstSelectorPattern sub (getLoc firstPattern)) in
      ret (Some (lp, argElt, bodyElt))
  | TuplePattern _ fields _ =>
      match fields with
      | [firstElt] =>
          let bodyElt := firstElt in
          let argElt :=
            TuplePatternElt3
              (getFirstSelectorPattern (getPattern firstElt)
                 (getLoc firstPattern))
              (getInit firstElt) (getVarargBaseType firstElt) in
          ret (Some (NoLoc, argElt, bodyElt))
      | _ =>
          t <- getTok ;;
          diagnose (getTokLoc t) func_selector_with_not_one_argument ;;;
          ret None
      end
  | _ => unreachable
  end.

(** Lines 181-191: the loop over the selector clauses. *)
Fixpoint parseSelectorArguments (fuel : nat) (st : SelectorState)
  : M (bool * SelectorState) :=
  t <- getTok ;;
  if Token_is t identifier then
    match fuel with
    | 0 => outOfFuel
    | S fuel' =>
        r <- parseSelectorArgument fuel' st ;;
        let '(failed, st') := r in
        if failed : bool then ret (true, st')
        else parseSelectorArguments fuel' st'
    end
  else if Token_is t l_paren then
    diagnose (getTokLoc t) func_selector_with_curry ;;;
    ret (true, st)
  else ret (false, st).

Definition parseSelectorFunctionArguments (fuel : nat)
    (argP bodyP : list Pattern) (firstPattern : Pattern)
  : M (bool * list Pattern * list Pattern) :=
  first <- convertFirstPattern firstPattern ;;
  match first with
  | None => ret (true, argP, bodyP)
  | Some (lp, argElt, bodyElt) =>
      r <- parseSelectorArguments fuel
             (mkSelectorState [argElt] [bodyElt] ∅ NoLoc) ;;
      let '(failed, st) := r in
      if failed : bool then ret (true, argP, bodyP)
      else
        ret (false,
             argP ++ [TuplePattern lp (argElts st) (rp st)],
             bodyP ++ [TuplePattern lp (bodyElts st) (rp st)])
  end.

(** *** Parser::parseFunctionArguments (lines 198-221) *)
Definition parseFunctionArguments (fuel : nat)
    (argPatterns bodyPatterns : list Pattern)
  : M (bool * list Pattern * list Pattern) :=
  pattern <- parsePatternTuple fuel true ;;
  match pattern with
  | None => ret (true, argPatterns, bodyPatterns)
  | Some firstPattern =>
      t <- getTok ;;
      if Token_is t identifier then
        parseSelectorFunctionArguments fuel argPatterns bodyPatterns
          firstPattern
      else
        parseCurriedFunctionArguments fuel
          (argPatterns ++ [firstPattern]) (bodyPatterns ++ [firstPattern])
  end.

(** *** Parser::parseFunctionSignature (lines 230-244) *)
Definition parseFunctionSignature (fuel : nat)
    (argPatterns bodyPatterns : list Pattern) (retType : option TypeLoc)
  : M (bool * list Pattern * list Pattern * option TypeLoc) :=
  r <- parseFunctionArguments fuel argPatterns bodyPatterns ;;
  let '(failed, argPatterns', bodyPatterns') := r in
  if failed : bool then ret (true, argPatterns', bodyPatterns', retType)
  else
    c <- consumeIf arrow ;;
    if c : bool then
      type <- ext parseType ;;
      match type with
      | None => ret (true, argPatterns', bodyPatterns', retType)
      | Some type => ret (false, argPatterns', bodyPatterns', Some type)
      end
    else ret (false, argPatterns', bodyPatterns', retType).

End ParsePattern.

(** ** A concrete instance of the collaborators

    Types are names and slices of types, an expression is the text of one
    literal token, a type annotation is one identifier.  It serves to run
    the parser on token streams. *)
Module Demo.

Inductive DemoTy : Type :=
| NamedTy (name : string)
| SliceTy (base : DemoTy).

#[export] Instance demoSema : Sema :=
  {| Expr := string; Ty := DemoTy; ArraySliceType_get := SliceTy |}.

Definition literal : tok := tok_other 0.

Definition demoParseExpr (d : DiagID) (P : Parser) : option Expr * Parser :=
  if Token_is (Tok P) literal
  then (Some (getText (Tok P)), mkParser (tail (Toks P)) (Diags P))
  else (None, mkParser (Toks P) (Diags P ++ [Diag (getTokLoc (Tok P)) d])).

Definition demoParseType (P : Parser) : option TypeLoc * Parser :=
  if Token_is (Tok P) identifier
  then (Some (mkTypeLoc (NamedTy (getText (Tok P)))
                (getTokLoc (Tok P), getTokLoc (Tok P))),
        mkParser (tail (Toks P)) (Diags P))
  else (None, P).

Fixpoint demoGetLoc (p : Pattern) : SourceLoc :=
  match p with
  | AnyPattern loc => loc
  | NamedPattern decl => VarDecl_getLoc decl
  | TypedPattern sub _ => demoGetLoc sub
  | ParenPattern LPLoc _ _ => LPLoc
  | TuplePattern LPLoc _ _ => LPLoc
  end.

#[export] Instance demoCollaborators : Collaborators :=
  {| getLoc := demoGetLoc;
     tupleBoundName := fun _ => "";
     parseExpr := demoParseExpr;
     parseTypeAnnotation := demoParseType;
     parseType := demoParseType |}.

(** Number the tokens of a stream from location 1. *)
Fixpoint lexFrom (loc : SourceLoc) (ts : list (tok * string)) : list Token :=
  match ts with
  | [] => []
  | (k, text) :: ts' => mkToken k text loc :: lexFrom (S loc) ts'
  end.

Definition start (ts : list (tok * string)) : Parser :=
  mkParser (lexFrom 1 ts) [].

Definition ident (s : string) : tok * string := (identifier, s).
Definition keyword (s : string) : tok * string := (kw_ s, s).
Definition lit (s : string) : tok * string := (literal, s).
Definition LPAREN : tok * string := (l_paren, "(").
Definition RPAREN : tok * string := (r_paren, ")").
Definition COLON : tok * string := (colon, ":").
Definition EQUAL : tok * string := (equal, "=").
Definition COMMA : tok * string := (comma, ",").
Definition ELLIPSIS : tok * string := (ellipsis, "...").

(** The clauses [(a) to(b) to(c)]: the selector name [to] is used twice. *)
Definition duplicateSelectorInput : Parser :=
  start
    [LPAREN; ident "a"; RPAREN;
     ident "to"; LPAREN; ident "b"; RPAREN;
     ident "to"; LPAREN; ident "c"; RPAREN].

End Demo.

(** A second instance: the type parser takes any one token as a type name
    and never fails. *)
Module Lenient.

Definition parseAnyType (P : Parser) : option (@TypeLoc Demo.demoSema) * Parser :=
  (Some (@mkTypeLoc Demo.demoSema (Demo.NamedTy (getText (Tok P)))
           (getTokLoc (Tok P), getTokLoc (Tok P))),
   advance P).

#[export] Instance lenientCollaborators : @Collaborators Demo.demoSema :=
  {| getLoc := Demo.demoGetLoc;
     tupleBoundName := fun _ => "";
     parseExpr := Demo.demoParseExpr;
     parseTypeAnnotation := parseAnyType;
     parseType := parseAnyType |}.

End Lenient.

(** Token streams and trees the properties are run on. *)
Module Samples.
Import Demo.

Definition twoClauses : Parser :=
  start [LPAREN; ident "b"; RPAREN; LPAREN; ident "c"; RPAREN; ident "x"].

Definition curriedSignature : Parser :=
  start [LPAREN; ident "a"; RPAREN; LPAREN; ident "b"; RPAREN].

Definition afterFirstClause : Parser :=
  mkParser
    (lexFrom 8 [ident "to"; LPAREN; ident "b"; COLON; ident "Int"; RPAREN]) [].

Definition firstClause : @Pattern demoSema :=
  TuplePattern 1
    [mkTuplePatternElt
       (TypedPattern (NamedPattern (mkVarDecl 2 "a"))
          (mkTypeLoc (NamedTy "Int") (4, 4)))
       (Some "1") None] 7.

Definition twoSelectors : Parser :=
  mkParser
    (lexFrom 4 [ident "to"; LPAREN; ident "b"; RPAREN;
                ident "by"; LPAREN; ident "c"; RPAREN]) [].

Definition twoSelectorsState : @SelectorState demoSema :=
  mkSelectorState
    [mkTuplePatternElt (NamedPattern (mkVarDecl 4 "to")) None None;
     mkTuplePatternElt (NamedPattern (mkVarDecl 8 "by")) None None]
    [mkTuplePatternElt (NamedPattern (mkVarDecl 6 "b")) None None;
     mkTuplePatternElt (NamedPattern (mkVarDecl 10 "c")) None None]
    (<["by" := mkVarDecl 8 "by"]> (<["to" := mkVarDecl 4 "to"]> ∅)) 11.

End Samples.

(** ** Notions used to state the properties *)

(** [c'] returns whatever [c] returns. *)
Definition extends {A} (c c' : M A) : Prop :=
  forall P a P', c P = Done a P' -> c' P = Done a P'.

(** [c] run from [P] does not run out of fuel, and what it returns
    satisfies [Q]. *)
Definition returns {A} (c : M A) (P : Parser) (Q : A -> Parser -> Prop) : Prop :=
  match c P with
  | Done a P' => Q a P'
  | OutOfFuel => False
  | Unreachable => True
  end.

(** Every element before the last is non-vararg. *)
Definition varargOnlyLast {sema : Sema} (elts : list TuplePatternElt) : Prop :=
  Forall (fun e => isVararg e = false) (removelast elts).

(** The number of tokens left. *)
Definition remaining (P : Parser) : nat := length (Toks P).

(** A result that moved the cursor forward, strictly when [strict] holds of
    the value. *)
Definition forward {A} (strict : A -> Prop) (P : Parser) (a : A) (P' : Parser)
  : Prop :=
  remaining P' <= remaining P /\ (strict a -> remaining P' < remaining P).

(** The cursor is at most [n] tokens from the end. *)
Definition within {A} (n : nat) : A -> Parser -> Prop :=
  fun _ P' => remaining P' <= n.

(** Whatever [c] returns from [P] satisfies [Q]. *)
Definition ensures {A} (c : M A) (P : Parser) (Q : A -> Parser -> Prop) : Prop :=
  forall a P', c P = Done a P' -> Q a P'.

(** [dyn_cast<TypedPattern>(p)] followed by [getTypeLoc()]. *)
Definition typeOf {sema : Sema} (p : Pattern) : option TypeLoc :=
  match p with
  | TypedPattern _ type => Some type
  | _ => None
  end.

(** The pattern is a ParenPattern or a TuplePattern. *)
Definition isParenOrTuple {sema : Sema} (p : Pattern) : Prop :=
  match p with
  | ParenPattern _ _ _ | TuplePattern _ _ _ => True
  | _ => False
  end.

(** An argument element and a body element that describe one parameter:
    the same initializer, the same vararg base type, the same type
    annotation. *)
Definition parallel {sema : Sema} (a b : TuplePatternElt) : Prop :=
  getInit a = getInit b /\
  getVarargBaseType a = getVarargBaseType b /\
  typeOf (getPattern a) = typeOf (getPattern b).

(** Every name of the table is bound to a declaration of that name. *)
Definition wellKeyed (names : gmap string VarDecl) : Prop :=
  forall id decl, names !! id = Some decl -> VarDecl_getName decl = id.

(** The sink kept what it held and, when [failed] holds of the value,
    holds more than before. *)
Definition logged {A} (failed : A -> Prop) (P : Parser) (a : A) (P' : Parser)
  : Prop :=
  Diags P `prefix_of` Diags P' /\
  (failed a -> length (Diags P) < length (Diags P')).

(** The failure signals of the routines: a null pointer, or [true] in the
    first component of what is returned. *)
Definition isNone {A} (r : option A) : Prop := r = None.
Definition failedFlag {A} (r : bool * A) : Prop := r.1 = true.
Definition failedArgs {A B} (r : bool * A * B) : Prop := r.1.1 = true.
Definition failedSignature {A B C} (r : bool * A * B * C) : Prop :=
  r.1.1.1 = true.

(** A vararg element has no initializer, and its pattern is typed with the
    array slice of its vararg base type. *)
Definition wfVararg {sema : Sema} (e : TuplePatternElt) : Prop :=
  forall T, getVarargBaseType e = Some T ->
    getInit e = None /\
    exists sub range,
      getPattern e = TypedPattern sub (mkTypeLoc (ArraySliceType_get T) range).

(** The specification's account of an element that arrives while the list
    ends in a vararg element: ellipsis_pattern_not_at_end is recorded at that
    element's pattern and the element is demoted; any other list, and the
    state, are left as they are. *)
Definition demotePrevious {sema : Sema} {collab : Collaborators}
    (elts : list TuplePatternElt) (P : Parser)
  : list TuplePatternElt * Parser :=
  match last elts with
  | Some b =>
      if isVararg b then
        (removelast elts ++ [revertToNonVariadic b],
         emit (Diag (getLoc (getPattern b)) ellipsis_pattern_not_at_end) P)
      else (elts, P)
  | None => (elts, P)
  end.

(** [tupleSteps fuel allow n elts P final RPLoc P']: from the elements
    [elts] and the state [P], [n] elements are parsed one after the other,
    each one appended once [demotePrevious] has been applied to the list and
    to the state its parse left, with a comma between two of them and the
    closing parenthesis, at [RPLoc], after the last; this leaves the
    elements [final] and the state [P']. *)
Inductive tupleSteps {sema : Sema} {collab : Collaborators}
    (fuel : nat) (allow : bool)
  : nat -> list TuplePatternElt -> Parser ->
    list TuplePatternElt -> SourceLoc -> Parser -> Prop :=
| tupleSteps_last elts P e P1 :
    parsePatternTupleElement fuel allow P = Done (Some e) P1 ->
    Token_is (Tok (demotePrevious elts P1).2) comma = false ->
    Token_is (Tok (demotePrevious elts P1).2) r_paren = true ->
    tupleSteps fuel allow 1 elts P
      ((demotePrevious elts P1).1 ++ [e])
      (getTokLoc (Tok (demotePrevious elts P1).2))
      (advance (demotePrevious elts P1).2)
| tupleSteps_more n elts P e P1 final RPLoc P' :
    parsePatternTupleElement fuel allow P = Done (Some e) P1 ->
    Token_is (Tok (demotePrevious elts P1).2) comma = true ->
    tupleSteps fuel allow n ((demotePrevious elts P1).1 ++ [e])
      (advance (demotePrevious elts P1).2) final RPLoc P' ->
    tupleSteps fuel allow (S n) elts P final RPLoc P'.

(** The elements between the parentheses: none, or [n] steps from the
    empty list. *)
Definition tupleRun {sema : Sema} {collab : Collaborators}
    (fuel : nat) (allow : bool) (n : nat) (P : Parser)
    (elts : list TuplePatternElt) (RPLoc : SourceLoc) (P' : Parser) : Prop :=
  (Token_is (Tok P) r_paren = true /\ n = 0 /\ elts = [] /\
   RPLoc = getTokLoc (Tok P) /\ P' = advance P) \/
  (Token_is (Tok P) r_paren = false /\
   tupleSteps fuel allow n [] P elts RPLoc P').

(** * Properties of the parser *)

Arguments Token_is : simpl never.

Section Properties.
Context {sema : Sema} {collab : Collaborators}.

Lemma bind_Done {A B} (c : M A) (k : A -> M B) P a P1 :
  c P = Done a P1 -> bind c k P = k a P1.
Proof. intros H. unfold bind. now rewrite H. Qed.

Lemma bind_inv {A B} (c : M A) (k : A -> M B) P b P' :
  bind c k P = Done b P' ->
  exists a P1, c P = Done a P1 /\ k a P1 = Done b P'.
Proof.
  unfold bind. destruct (c P) as [a P1| |]; [|discriminate..].
  intros H. now exists a, P1.
Qed.

Lemma Tok_emit d P : Tok (emit d P) = Tok P.
Proof. reflexivity. Qed.

Lemma parseOptionalInitializer_total allow P :
  exists init P2, parseOptionalInitializer allow P = Done init P2.
Proof.
  unfold parseOptionalInitializer, bind, getTok, consumeToken, ext, ret.
  destruct (Token_is (Tok P) equal); [|eauto].
  destruct allow; cbn.
  - destruct (parseExpr _ _) as [[e|] P2]; eauto.
  - unfold diagnose. destruct (parseExpr _ _) as [[e|] P2]; eauto.
Qed.

Lemma parseOptionalInitializer_forbidden P init P2 :
  parseOptionalInitializer false P = Done init P2 -> init = None.
Proof.
  unfold parseOptionalInitializer, bind, getTok, consumeToken, ext, ret.
  destruct (Token_is (Tok P) equal); [|congruence].
  cbn. destruct (parseExpr _ _) as [[e|] P3]; congruence.
Qed.

(** Without an ellipsis the element is returned as it stands. *)
Lemma parseOptionalEllipsis_absent pat init P :
  Token_is (Tok P) ellipsis = false ->
  parseOptionalEllipsis pat init P = Done (Some (TuplePatternElt2 pat init)) P.
Proof.
  intros E. unfold parseOptionalEllipsis, bind, getTok, Token_isNot.
  now rewrite E.
Qed.

(** Lines 341-347. *)
Lemma parseOptionalEllipsis_init pat e P :
  Token_is (Tok P) ellipsis = true ->
  parseOptionalEllipsis pat (Some e) P =
    Done (Some (mkTuplePatternElt pat (Some e) None))
         (advance (emit (Diag (getTokLoc (Tok P)) tuple_ellipsis_init) P)).
Proof.
  intros E.
  unfold parseOptionalEllipsis, bind, getTok, consumeTokenK, Token_isNot.
  rewrite E. cbn. unfold getTok. rewrite Tok_emit, E. reflexivity.
Qed.

(** Lines 349-358. *)
Lemma parseOptionalEllipsis_untyped pat P :
  Token_is (Tok P) ellipsis = true ->
  (forall sub ty, pat <> TypedPattern sub ty) ->
  parseOptionalEllipsis pat None P =
    Done (Some (mkTuplePatternElt pat None None))
         (emit (Diag (getTokLoc (Tok P)) untyped_pattern_ellipsis) (advance P)).
Proof.
  intros E Hpat.
  unfold parseOptionalEllipsis, bind, getTok, consumeTokenK, Token_isNot.
  rewrite E. cbn. unfold getTok. rewrite E. cbn.
  destruct pat; try reflexivity. now destruct (Hpat pat type).
Qed.

(** Lines 349-366. *)
Lemma parseOptionalEllipsis_typed sub tl P :
  Token_is (Tok P) ellipsis = true ->
  parseOptionalEllipsis (TypedPattern sub tl) None P =
    Done (Some (mkTuplePatternElt
                  (TypedPattern sub
                     (mkTypeLoc (ArraySliceType_get (getType tl))
                        (getSourceRange tl)))
                  None (Some (getType tl))))
         (advance P).
Proof.
  intros E.
  unfold parseOptionalEllipsis, bind, getTok, consumeTokenK, Token_isNot.
  rewrite E. cbn. unfold getTok. rewrite E. reflexivity.
Qed.

(** The three phases of the element parser. *)
Lemma parsePatternTupleElement_phases fuel allow P pat P1 init P2 :
  parsePattern fuel P = Done (Some pat) P1 ->
  parseOptionalInitializer allow P1 = Done init P2 ->
  parsePatternTupleElement fuel allow P = parseOptionalEllipsis pat init P2.
Proof.
  intros Hpat Hinit.
  unfold parsePatternTupleElement, parsePatternTupleElementWith.
  fold (parsePattern fuel).
  rewrite (bind_Done _ _ _ _ _ Hpat). now rewrite (bind_Done _ _ _ _ _ Hinit).
Qed.

Lemma parsePatternTupleElement_inv fuel allow P elt P' :
  parsePatternTupleElement fuel allow P = Done (Some elt) P' ->
  exists pat P1 init P2,
    parsePattern fuel P = Done (Some pat) P1 /\
    parseOptionalInitializer allow P1 = Done init P2 /\
    parseOptionalEllipsis pat init P2 = Done (Some elt) P'.
Proof.
  unfold parsePatternTupleElement, parsePatternTupleElementWith.
  fold (parsePattern fuel). intros H.
  apply bind_inv in H as ([pat|] & P1 & Hpat & H); [|discriminate].
  apply bind_inv in H as (init & P2 & Hinit & H).
  now exists pat, P1, init, P2.
Qed.

Lemma parseOptionalEllipsis_inv pat init P elt P' :
  parseOptionalEllipsis pat init P = Done (Some elt) P' ->
  getInit elt = init /\
  ((getVarargBaseType elt = None /\ getPattern elt = pat) \/
   (exists sub tl,
      pat = TypedPattern sub tl /\ init = None /\
      Token_is (Tok P) ellipsis = true /\
      getVarargBaseType elt = Some (getType tl) /\
      getPattern elt =
        TypedPattern sub
          (mkTypeLoc (ArraySliceType_get (getType tl)) (getSourceRange tl)))).
Proof.
  destruct (Token_is (Tok P) ellipsis) eqn:E.
  - destruct init as [e|].
    + rewrite parseOptionalEllipsis_init by done. intros [= <- _]. auto.
    + destruct pat as [loc|decl|sub tl|lp sub rp|lp fs rp].
      3: { rewrite parseOptionalEllipsis_typed by done. intros [= <- _].
           split; [done|]. right. by exists sub, tl. }
      all: rewrite parseOptionalEllipsis_untyped by done; intros [= <- _]; auto.
  - rewrite parseOptionalEllipsis_absent by done. intros [= <- _]. auto.
Qed.


Lemma parsePatternAtom_unfold fuel :
  parsePatternAtom fuel =
  (t <- getTok ;;
   match getKind t with
   | l_paren =>
       match fuel with
       | 0 => outOfFuel
       | S fuel' => parsePatternTuple fuel' false
       end
   | identifier => parsePatternIdentifier
   | kw_ _ =>
       diagnose (getTokLoc t) expected_pattern_is_keyword ;;;
       consumeToken ;;;
       ret None
   | _ =>
       diagnose (getTokLoc t) expected_pattern ;;;
       ret None
   end).
Proof. destruct fuel; reflexivity. Qed.

(** C1 (what the code does): where initializers are forbidden, the element
    returned by [parsePatternTupleElement] never carries one: the
    expression after '=' is parsed and then dropped from the element. *)
Theorem C1_forbidden_initializer_is_dropped fuel P elt P' :
  parsePatternTupleElement fuel false P = Done (Some elt) P' ->
  getInit elt = None.
Proof.
  intros H. apply parsePatternTupleElement_inv in H
    as (pat & P1 & init & P2 & _ & Hinit & Hell).
  apply parseOptionalInitializer_forbidden in Hinit. subst init.
  now apply parseOptionalEllipsis_inv in Hell as [? _].
Qed.

(** C6: an element with a stored default initializer that is followed by an
    ellipsis is diagnosed (tuple_ellipsis_init at the ellipsis), the
    ellipsis token is consumed, and the element is returned with its
    initializer and without the vararg marking. *)
Theorem C6_ellipsis_after_initializer fuel allow P pat P1 e P2 :
  parsePattern fuel P = Done (Some pat) P1 ->
  parseOptionalInitializer allow P1 = Done (Some e) P2 ->
  Token_is (Tok P2) ellipsis = true ->
  parsePatternTupleElement fuel allow P =
    Done (Some (mkTuplePatternElt pat (Some e) None))
         (advance (emit (Diag (getTokLoc (Tok P2)) tuple_ellipsis_init) P2))
  /\ (exists rest, Toks P2 = Tok P2 :: rest /\
        Toks (advance (emit (Diag (getTokLoc (Tok P2)) tuple_ellipsis_init) P2))
          = rest).
Proof.
  intros Hpat Hinit E. split.
  - rewrite (parsePatternTupleElement_phases _ _ _ _ _ _ _ Hpat Hinit).
    now apply parseOptionalEllipsis_init.
  - unfold Tok in *. destruct (Toks P2) as [|t rest] eqn:Ets.
    + discriminate.
    + exists rest. now cbn; rewrite Ets.
Qed.

(** C7: an ellipsis after an element whose pattern is not a TypedPattern
    is diagnosed, and the element is returned non-vararg; the element parse
    succeeds.  The diagnostic is untyped_pattern_ellipsis, or
    tuple_ellipsis_init when the element also stores an initializer. *)
Theorem C7_ellipsis_on_untyped_pattern fuel allow P pat P1 init P2 :
  parsePattern fuel P = Done (Some pat) P1 ->
  (forall sub ty, pat <> TypedPattern sub ty) ->
  parseOptionalInitializer allow P1 = Done init P2 ->
  Token_is (Tok P2) ellipsis = true ->
  exists P',
    parsePatternTupleElement fuel allow P =
      Done (Some (mkTuplePatternElt pat init None)) P' /\
    Toks P' = tail (Toks P2) /\
    Diags P' =
      Diags P2 ++
      [Diag (getTokLoc (Tok P2))
         (if isNull init then untyped_pattern_ellipsis
          else tuple_ellipsis_init)].
Proof.
  intros Hpat Huntyped Hinit E.
  rewrite (parsePatternTupleElement_phases _ _ _ _ _ _ _ Hpat Hinit).
  destruct init as [e|].
  - rewrite parseOptionalEllipsis_init by done. eauto.
  - rewrite parseOptionalEllipsis_untyped by done. eauto.
Qed.

(** C8: an element returned as vararg had a TypedPattern; the recorded
    vararg base type is the type declared in that pattern, and the type of
    the pattern in the element is the array slice of the declared type. *)
Theorem C8_vararg_base_type fuel allow P elt P' T :
  parsePatternTupleElement fuel allow P = Done (Some elt) P' ->
  getVarargBaseType elt = Some T ->
  exists sub declared P1,
    parsePattern fuel P = Done (Some (TypedPattern sub declared)) P1 /\
    T = getType declared /\
    getPattern elt =
      TypedPattern sub
        (mkTypeLoc (ArraySliceType_get (getType declared))
           (getSourceRange declared)).
Proof.
  intros H HT. apply parsePatternTupleElement_inv in H
    as (pat & P1 & init & P2 & Hpat & _ & Hell).
  apply parseOptionalEllipsis_inv in Hell
    as [_ [[Hnone _]|(sub & tl & -> & _ & _ & Hty & Hp)]]; [congruence|].
  exists sub, tl, P1. split; [done|]. split; congruence.
Qed.

(** The marking itself (lines 360-366): a typed element without initializer
    that is followed by an ellipsis is returned as vararg. *)
Lemma parsePatternTupleElement_marks_vararg fuel allow P sub tl P1 P2 :
  parsePattern fuel P = Done (Some (TypedPattern sub tl)) P1 ->
  parseOptionalInitializer allow P1 = Done None P2 ->
  Token_is (Tok P2) ellipsis = true ->
  parsePatternTupleElement fuel allow P =
    Done (Some (mkTuplePatternElt
                  (TypedPattern sub
                     (mkTypeLoc (ArraySliceType_get (getType tl))
                        (getSourceRange tl)))
                  None (Some (getType tl))))
         (advance P2).
Proof.
  intros Hpat Hinit E.
  rewrite (parsePatternTupleElement_phases _ _ _ _ _ _ _ Hpat Hinit).
  now apply parseOptionalEllipsis_typed.
Qed.

(** C9: on a leading keyword the atom parser fails with
    expected_pattern_is_keyword and consumes that one token; on any other
    token that is neither '(' nor an identifier it fails with
    expected_pattern and consumes nothing. *)
Theorem C9_atom_failures fuel P :
  (forall kw, getKind (Tok P) = kw_ kw ->
     parsePatternAtom fuel P =
       Done None
         (advance (emit (Diag (getTokLoc (Tok P)) expected_pattern_is_keyword) P))
     /\ Toks P = Tok P :: Toks (advance P)) /\
  (getKind (Tok P) <> l_paren -> getKind (Tok P) <> identifier ->
   (forall kw, getKind (Tok P) <> kw_ kw) ->
     parsePatternAtom fuel P =
       Done None (emit (Diag (getTokLoc (Tok P)) expected_pattern) P)
     /\ Toks (emit (Diag (getTokLoc (Tok P)) expected_pattern) P) = Toks P).
Proof.
  rewrite parsePatternAtom_unfold. unfold bind, getTok. split.
  - intros kw Hkw. rewrite Hkw. split; [reflexivity|].
    unfold Tok in *. destruct (Toks P) as [|t rest] eqn:Ets; [discriminate|].
    cbn. now rewrite Ets.
  - intros Hlp Hid Hkw. split; [|reflexivity].
    destruct (getKind (Tok P)) eqn:E; try reflexivity.
    + done.
    + done.
    + now destruct (Hkw kw).
Qed.

(** C10: only a pattern that is a TypedPattern at its outermost node is
    marked vararg.  A TypedPattern under a ParenPattern, followed by an
    ellipsis, is diagnosed with untyped_pattern_ellipsis and returned
    non-vararg, although the bound name of the ParenPattern is the bound
    name of what it wraps. *)
Theorem C10_vararg_needs_outermost_typed fuel allow P :
  (forall elt P',
     parsePatternTupleElement fuel allow P = Done (Some elt) P' ->
     isVararg elt = true ->
     exists sub tl P1,
       parsePattern fuel P = Done (Some (TypedPattern sub tl)) P1) /\
  (forall lp inner rp P1 P2,
     parsePattern fuel P = Done (Some (ParenPattern lp inner rp)) P1 ->
     parseOptionalInitializer allow P1 = Done None P2 ->
     Token_is (Tok P2) ellipsis = true ->
     parsePatternTupleElement fuel allow P =
       Done (Some (mkTuplePatternElt (ParenPattern lp inner rp) None None))
            (emit (Diag (getTokLoc (Tok P2)) untyped_pattern_ellipsis)
               (advance P2))
     /\ getBoundName (ParenPattern lp inner rp) = getBoundName inner).
Proof.
  split.
  - intros elt P' H Hva. unfold isVararg in Hva.
    destruct (getVarargBaseType elt) as [T|] eqn:HT; [|discriminate].
    apply parsePatternTupleElement_inv in H
      as (pat & P1 & init & P2 & Hpat & _ & Hell).
    apply parseOptionalEllipsis_inv in Hell
      as [_ [[Hnone _]|(sub & tl & -> & _)]]; [congruence|].
    by exists sub, tl, P1.
  - intros lp inner rp P1 P2 Hpat Hinit E. split; [|reflexivity].
    rewrite (parsePatternTupleElement_phases _ _ _ _ _ _ _ Hpat Hinit).
    now apply parseOptionalEllipsis_untyped.
Qed.


(** *** The tuple parser *)

Lemma consumeTokenK_inv k P loc P0 :
  consumeTokenK k P = Done loc P0 ->
  Token_is (Tok P) k = true /\ loc = getTokLoc (Tok P) /\ P0 = advance P.
Proof.
  unfold consumeTokenK, bind, getTok, consumeToken, unreachable.
  destruct (Token_is (Tok P) k); [|discriminate].
  now intros [= <- <-].
Qed.

Lemma consumeTokenK_Done k P :
  Token_is (Tok P) k = true ->
  consumeTokenK k P = Done (getTokLoc (Tok P)) (advance P).
Proof.
  intros E. unfold consumeTokenK, bind, getTok. now rewrite E.
Qed.

Lemma parsePatternTuple_inv fuel allow P pat P' :
  parsePatternTuple fuel allow P = Done (Some pat) P' ->
  exists elts RPLoc,
    Token_is (Tok P) l_paren = true /\
    parseTupleElements fuel allow (advance P) = Done (false, elts, RPLoc) P' /\
    pat = tupleOrParen (getTokLoc (Tok P)) elts RPLoc.
Proof.
  unfold parsePatternTuple, parsePatternTupleWith. intros H.
  apply bind_inv in H as (LPLoc & P0 & Hlp & H).
  apply consumeTokenK_inv in Hlp as (Hlp & -> & ->).
  apply bind_inv in H as ([[Invalid elts] RPLoc] & P1 & Helts & H).
  destruct Invalid; [discriminate|]. injection H as <- <-.
  now exists elts, RPLoc.
Qed.

(** An invariant of what the callback captures is an invariant of the
    list helper. *)
Lemma parseList_loop_invariant {St} (I : St -> Prop) RightK SeparatorK
    ErrorDiag (callback : St -> M (bool * St)) :
  (forall s P r s' P', I s -> callback s P = Done (r, s') P' -> I s') ->
  forall fuel s P r s' RightLoc P',
    I s ->
    parseList_loop RightK SeparatorK ErrorDiag callback fuel s P
      = Done (r, s', RightLoc) P' ->
    I s'.
Proof.
  intros Hcb. induction fuel as [|fuel IH]; intros s P r s' RightLoc P' Hs H.
  - discriminate.
  - cbn in H. apply bind_inv in H as ([Invalid s1] & P1 & Hcall & H).
    pose proof (Hcb _ _ _ _ _ Hs Hcall) as Hs1.
    destruct Invalid.
    + now injection H as _ <- _ _.
    + unfold bind, getTok in H.
      destruct (Token_is (Tok P1) SeparatorK).
      * cbn in H. now apply IH in H.
      * destruct (Token_is (Tok P1) RightK); cbn in H;
          now injection H as _ <- _ _.
Qed.

Lemma parseList_invariant {St} (I : St -> Prop) RightK SeparatorK
    ErrorDiag (callback : St -> M (bool * St)) :
  (forall s P r s' P', I s -> callback s P = Done (r, s') P' -> I s') ->
  forall fuel s P r s' RightLoc P',
    I s ->
    parseList RightK SeparatorK ErrorDiag callback fuel s P
      = Done (r, s', RightLoc) P' ->
    I s'.
Proof.
  intros Hcb fuel s P r s' RightLoc P' Hs. unfold parseList, bind, getTok.
  destruct (Token_is (Tok P) RightK).
  - cbn. now intros [= _ <- _ _].
  - now apply parseList_loop_invariant.
Qed.

Lemma addTupleElement_inv fuel allow elts P r elts' P' :
  addTupleElement (parsePatternAtom fuel) allow elts P = Done (r, elts') P' ->
  (r = true /\ elts' = elts) \/
  (exists e, r = false /\
     elts' = (match last elts with
              | Some b => if isVararg b then revertBack elts else elts
              | None => elts
              end) ++ [e]).
Proof.
  unfold addTupleElement. intros H.
  apply bind_inv in H as ([e|] & P1 & _ & H).
  - right. exists e. apply bind_inv in H as (elts1 & P2 & H1 & H).
    injection H as <- <- _. split; [done|]. f_equal.
    destruct (last elts) as [b|]; [destruct (isVararg b)|];
      cbn in H1; now injection H1 as <- _.
  - left. now injection H as <- <- _.
Qed.

Lemma addTupleElement_varargOnlyLast fuel allow elts P r elts' P' :
  varargOnlyLast elts ->
  addTupleElement (parsePatternAtom fuel) allow elts P = Done (r, elts') P' ->
  varargOnlyLast elts'.
Proof.
  intros Hinv H. apply addTupleElement_inv in H as [[_ ->]|(e & _ & ->)];
    [done|].
  unfold varargOnlyLast in *. rewrite removelast_last.
  destruct (last elts) as [b|] eqn:Hlast;
    [|apply last_None in Hlast; subst elts; constructor].
  apply last_Some in Hlast as [front ->]. rewrite removelast_last in Hinv.
  destruct (isVararg b) eqn:Hb.
  - unfold revertBack. rewrite last_snoc, removelast_last.
    apply Forall_app. split; [done|]. now constructor.
  - apply Forall_app. split; [done|]. now constructor.
Qed.

Lemma varargOnlyLast_lookup (elts : list TuplePatternElt) i e :
  varargOnlyLast elts -> elts !! i = Some e -> S i < length elts ->
  isVararg e = false.
Proof.
  unfold varargOnlyLast. intros Hinv Hi Hlt.
  destruct (last elts) as [b|] eqn:Hlast.
  - apply last_Some in Hlast as [front ->]. rewrite removelast_last in Hinv.
    rewrite length_app in Hlt. cbn in Hlt.
    rewrite lookup_app_l in Hi by lia.
    now apply (proj1 (Forall_lookup _ _) Hinv i e).
  - apply last_None in Hlast. subst elts. cbn in Hlt. lia.
Qed.

Lemma parseTupleElements_varargOnlyLast fuel allow P r elts RPLoc P' :
  parseTupleElements fuel allow P = Done (r, elts, RPLoc) P' ->
  varargOnlyLast elts.
Proof.
  unfold parseTupleElements, parseTupleElementsWith.
  apply (parseList_invariant varargOnlyLast).
  - intros s Q r' s' Q'. apply addTupleElement_varargOnlyLast.
  - constructor.
Qed.

Lemma tupleOrParen_cases LPLoc elts RPLoc :
  (exists e, elts = [e] /\ getInit e = None /\ isVararg e = false /\
     getBoundName (getPattern e) = "" /\
     tupleOrParen LPLoc elts RPLoc = ParenPattern LPLoc (getPattern e) RPLoc)
  \/
  (~ (exists e, elts = [e] /\ getInit e = None /\ isVararg e = false /\
        getBoundName (getPattern e) = "") /\
   tupleOrParen LPLoc elts RPLoc = TuplePattern LPLoc elts RPLoc).
Proof.
  destruct elts as [|e [|e' elts]].
  - right. split; [|done]. now intros (e & [=] & _).
  - cbn. destruct (getInit e) as [i|] eqn:Hi.
    { right. split; [|done]. intros (e0 & [= <-] & Hi' & _). congruence. }
    unfold Identifier_empty. cbn.
    destruct (bool_decide_reflect (getBoundName (getPattern e) = "")) as [Hn|Hn].
    2:{ right. split; [|done]. intros (e0 & [= <-] & _ & _ & Hn'). done. }
    destruct (isVararg e) eqn:Hv; cbn.
    { right. split; [|done]. intros (e0 & [= <-] & _ & Hv' & _). congruence. }
    left. by exists e.
  - right. split; [|done]. now intros (e0 & [=] & _).
Qed.

(** C2: a successful tuple-pattern parse returns a ParenPattern around the
    single element's pattern exactly when the element list is one element
    without initializer, not vararg and with an empty bound name; in every
    other case it returns the TuplePattern of the elements.  In particular
    the empty list gives a TuplePattern without fields, and "()" parses. *)
Theorem C2_paren_or_tuple fuel allow P :
  (forall pat P',
     parsePatternTuple fuel allow P = Done (Some pat) P' ->
     exists elts RPLoc,
       parseTupleElements fuel allow (advance P)
         = Done (false, elts, RPLoc) P' /\
       let LPLoc := getTokLoc (Tok P) in
       let single :=
         exists e, elts = [e] /\ getInit e = None /\ isVararg e = false /\
                   getBoundName (getPattern e) = "" in
       ((exists e, elts = [e] /\
                   pat = ParenPattern LPLoc (getPattern e) RPLoc) <-> single) /\
       ((exists lp sub rp, pat = ParenPattern lp sub rp) -> single) /\
       (~ single -> pat = TuplePattern LPLoc elts RPLoc) /\
       (elts = [] -> pat = TuplePattern LPLoc [] RPLoc) /\
       (forall e, elts = [e] -> getBoundName (getPattern e) <> "" ->
                  pat = TuplePattern LPLoc [e] RPLoc)) /\
  (Token_is (Tok P) l_paren = true ->
   Token_is (Tok (advance P)) r_paren = true ->
   parsePatternTuple fuel allow P =
     Done (Some (TuplePattern (getTokLoc (Tok P)) []
                   (getTokLoc (Tok (advance P)))))
          (advance (advance P))).
Proof.
  split.
  - intros pat P' H.
    apply parsePatternTuple_inv in H as (elts & RPLoc & _ & Helts & ->).
    exists elts, RPLoc. split; [done|]. cbn zeta.
    destruct (tupleOrParen_cases (getTokLoc (Tok P)) elts RPLoc)
      as [(e & -> & Hi & Hv & Hn & ->)|[Hnot ->]].
    + refine (conj (conj _ _) (conj _ (conj _ (conj _ _)))).
      * intros _. by exists e.
      * intros _. by exists e.
      * intros _. by exists e.
      * intros Hnot. destruct Hnot. by exists e.
      * discriminate.
      * intros e0 [= <-] Hne. done.
    + refine (conj (conj _ _) (conj _ (conj _ (conj _ _)))).
      * intros (e & _ & [=]).
      * intros Hs. now destruct Hnot.
      * intros (lp & sub & rp & [=]).
      * done.
      * now intros ->.
      * now intros e ->.
  - intros Hlp Hrp. unfold parsePatternTuple, parsePatternTupleWith.
    rewrite (bind_Done _ _ _ _ _ (consumeTokenK_Done _ _ Hlp)).
    unfold parseTupleElementsWith, parseList, bind, getTok.
    now rewrite Hrp.
Qed.

(** The tuple parser as a run of steps: one round of the list helper is
    one element parse after [demotePrevious]. *)
Lemma addTupleElement_demotePrevious fuel allow elts P :
  addTupleElement (parsePatternAtom fuel) allow elts P =
    match parsePatternTupleElement fuel allow P with
    | Done (Some e) P1 =>
        Done (false, (demotePrevious elts P1).1 ++ [e])
             (demotePrevious elts P1).2
    | Done None P1 => Done (true, elts) P1
    | OutOfFuel => OutOfFuel
    | Unreachable => Unreachable
    end.
Proof.
  unfold addTupleElement, parsePatternTupleElement, demotePrevious, revertBack.
  unfold bind at 1.
  destruct (parsePatternTupleElementWith _ _ P) as [[e|] P1| |]; try reflexivity.
  destruct (last elts) as [b|]; [destruct (isVararg b)|]; reflexivity.
Qed.

Lemma parseList_loop_tupleSteps fuel allow m :
  forall elts P final RPLoc P',
    parseList_loop r_paren comma expected_rparen_tuple_pattern_list
      (addTupleElement (parsePatternAtom fuel) allow) m elts P
      = Done (false, final, RPLoc) P' ->
    exists n, n <= m /\ tupleSteps fuel allow n elts P final RPLoc P'.
Proof.
  induction m as [|m IH]; intros elts P final RPLoc P' H; [discriminate|].
  cbn in H. unfold bind at 1 in H.
  rewrite addTupleElement_demotePrevious in H.
  destruct (parsePatternTupleElement fuel allow P) as [[e|] P1| |] eqn:He;
    try discriminate.
  unfold bind, getTok in H.
  destruct (Token_is (Tok (demotePrevious elts P1).2) comma) eqn:Hc.
  - cbn in H. apply IH in H as (n & Hn & H).
    exists (S n). split; [lia|]. by eapply tupleSteps_more.
  - destruct (Token_is (Tok (demotePrevious elts P1).2) r_paren) eqn:Hr;
      cbn in H; [|discriminate].
    injection H as <- <- <-. exists 1. split; [lia|].
    by apply tupleSteps_last.
Qed.

Lemma tupleSteps_parseList_loop fuel allow n elts P final RPLoc P' :
  tupleSteps fuel allow n elts P final RPLoc P' ->
  forall m, n <= m ->
    parseList_loop r_paren comma expected_rparen_tuple_pattern_list
      (addTupleElement (parsePatternAtom fuel) allow) m elts P
      = Done (false, final, RPLoc) P'.
Proof.
  induction 1 as [elts P e P1 He Hc Hr|n elts P e P1 final RPLoc P' He Hc _ IH];
    intros [|m] Hm; try lia; cbn; unfold bind at 1;
    rewrite addTupleElement_demotePrevious, He; unfold bind, getTok;
    rewrite Hc.
  - now rewrite Hr.
  - cbn. apply IH. lia.
Qed.

Lemma parseTupleElements_tupleRun fuel allow P elts RPLoc P' :
  parseTupleElements fuel allow P = Done (false, elts, RPLoc) P' <->
  exists n, n <= fuel /\ tupleRun fuel allow n P elts RPLoc P'.
Proof.
  unfold parseTupleElements, parseTupleElementsWith, parseList, tupleRun.
  unfold bind at 1, getTok.
  destruct (Token_is (Tok P) r_paren) eqn:Hr; cbn.
  - split.
    + intros [= <- <- <-]. exists 0. split; [lia|]. left. done.
    + intros (n & _ & [(_ & _ & -> & -> & ->)|[[=] _]]). done.
  - split.
    + intros H. apply parseList_loop_tupleSteps in H as (n & Hn & H).
      exists n. split; [done|]. right. done.
    + intros (n & Hn & [([=] & _)|[_ H]]).
      by eapply tupleSteps_parseList_loop.
Qed.

Lemma parsePatternTuple_tupleRun fuel allow P pat P' :
  parsePatternTuple fuel allow P = Done (Some pat) P' <->
  Token_is (Tok P) l_paren = true /\
  exists n elts RPLoc,
    n <= fuel /\ tupleRun fuel allow n (advance P) elts RPLoc P' /\
    pat = tupleOrParen (getTokLoc (Tok P)) elts RPLoc.
Proof.
  split.
  - intros H. apply parsePatternTuple_inv in H as (elts & RPLoc & Hlp & H & ->).
    split; [done|]. apply parseTupleElements_tupleRun in H as (n & Hn & H).
    by exists n, elts, RPLoc.
  - intros (Hlp & n & elts & RPLoc & Hn & H & ->).
    unfold parsePatternTuple, parsePatternTupleWith.
    rewrite (bind_Done _ _ _ _ _ (consumeTokenK_Done _ _ Hlp)).
    assert (parseTupleElements fuel allow (advance P)
            = Done (false, elts, RPLoc) P') as Hrun.
    { apply parseTupleElements_tupleRun. by exists n. }
    unfold parseTupleElements in Hrun.
    now rewrite (bind_Done _ _ _ _ _ Hrun).
Qed.

(** C3: the tuple parser returns a pattern exactly when it stands on '('
    and what follows is a run of element parses, separated by commas and
    closed by ')', in which each element that arrives while the list ends
    in a vararg element is appended only after ellipsis_pattern_not_at_end
    has been recorded at that element's pattern and that element has been
    demoted; the run then goes on, and the pattern is built from the
    elements it leaves.  The callback alone does the same in one step.  No
    element of a TuplePattern returned by the tuple parser, other than the
    last, is vararg. *)
Theorem C3_vararg_only_last fuel allow P :
  (forall pat P',
     parsePatternTuple fuel allow P = Done (Some pat) P' <->
     Token_is (Tok P) l_paren = true /\
     exists n elts RPLoc,
       n <= fuel /\
       tupleRun fuel allow n (advance P) elts RPLoc P' /\
       pat = tupleOrParen (getTokLoc (Tok P)) elts RPLoc) /\
  (forall elts b Q,
     last elts = Some b -> isVararg b = true ->
     demotePrevious elts Q =
       (removelast elts ++ [revertToNonVariadic b],
        emit (Diag (getLoc (getPattern b)) ellipsis_pattern_not_at_end) Q)
     /\ isVararg (revertToNonVariadic b) = false) /\
  (forall elts b e P1,
     parsePatternTupleElement fuel allow P = Done (Some e) P1 ->
     last elts = Some b -> isVararg b = true ->
     addTupleElement (parsePatternAtom fuel) allow elts P =
       Done (false, removelast elts ++ [revertToNonVariadic b] ++ [e])
            (emit (Diag (getLoc (getPattern b)) ellipsis_pattern_not_at_end) P1))
  /\
  (forall LPLoc elts RPLoc P',
     parsePatternTuple fuel allow P
       = Done (Some (TuplePattern LPLoc elts RPLoc)) P' ->
     forall i e, elts !! i = Some e -> S i < length elts ->
                 isVararg e = false).
Proof.
  refine (conj _ (conj _ (conj _ _))).
  - intros pat P'. apply parsePatternTuple_tupleRun.
  - intros elts b Q Hlast Hb. split; [|reflexivity].
    unfold demotePrevious. now rewrite Hlast, Hb.
  - intros elts b e P1 Helt Hlast Hb.
    rewrite addTupleElement_demotePrevious, Helt.
    unfold demotePrevious. rewrite Hlast, Hb. cbn. now rewrite <- app_assoc.
  - intros LPLoc elts RPLoc P' H i e Hi Hlt.
    apply parsePatternTuple_inv in H as (elts' & RPLoc' & _ & Helts & Heq).
    apply parseTupleElements_varargOnlyLast in Helts.
    destruct (tupleOrParen_cases (getTokLoc (Tok P)) elts' RPLoc')
      as [(e0 & _ & _ & _ & _ & Hp)|[_ Ht]]; [congruence|].
    rewrite Ht in Heq. injection Heq as _ -> _.
    now apply (varargOnlyLast_lookup elts' i e).
Qed.


(** *** The selector-style arguments *)

Lemma checkSelectorName_duplicate decl prev names P :
  names !! VarDecl_getName decl = Some prev ->
  checkSelectorName (NamedPattern decl) names P =
    Done names (emit (Redefinition prev decl) P).
Proof. intros H. unfold checkSelectorName. now rewrite H. Qed.

Lemma checkSelectorName_fresh decl names P :
  names !! VarDecl_getName decl = None ->
  checkSelectorName (NamedPattern decl) names P =
    Done (<[VarDecl_getName decl := decl]> names) P.
Proof. intros H. unfold checkSelectorName. now rewrite H. Qed.

Lemma parsePatternIdentifier_named P :
  Token_is (Tok P) identifier = true ->
  getText (Tok P) <> "_" ->
  parsePatternIdentifier P =
    Done (Some (NamedPattern (mkVarDecl (getTokLoc (Tok P)) (getText (Tok P)))))
         (advance P).
Proof.
  intros Hid Hname. unfold parsePatternIdentifier, bind, getTok, consumeIf.
  unfold bind, getTok. rewrite Hid. cbn.
  now rewrite bool_decide_eq_false_2.
Qed.

(** What one clause leaves behind: the table as it was handed in, and on
    success one more element in each list, typed alike. *)
Lemma parseSelectorArgumentBody_inv fuel argPattern st P failed st' P' :
  parseSelectorArgumentBody fuel argPattern st P = Done (failed, st') P' ->
  selectorNames st' = selectorNames st /\
  (failed = false ->
   exists argPat bodyPat init,
     argElts st' = argElts st ++ [TuplePatternElt2 argPat init] /\
     bodyElts st' = bodyElts st ++ [TuplePatternElt2 bodyPat init] /\
     (argPat = argPattern \/
      exists sub type, argPat = TypedPattern argPattern type /\
                       bodyPat = TypedPattern sub type)).
Proof.
  unfold parseSelectorArgumentBody, parseSelectorArgumentInit,
    parseSelectorArgumentClose.
  unfold bind, getTok, consumeIf, consumeTokenK, consumeToken, diagnose,
    skipUntil, ext, ret, unreachable, bind, getTok.
  intros H.
  repeat (case_match; simplify_eq; cbn in *); split; try done; intros _;
    eauto 10.
Qed.

Lemma parseSelectorArgument_inv fuel st P failed st' P' :
  parseSelectorArgument fuel st P = Done (failed, st') P' ->
  failed = false ->
  exists argElt bodyElt,
    argElts st' = argElts st ++ [argElt] /\
    bodyElts st' = bodyElts st ++ [bodyElt].
Proof.
  unfold parseSelectorArgument. intros H ->.
  apply bind_inv in H as ([argPattern|] & P1 & _ & H); [|discriminate].
  apply bind_inv in H as (names & P2 & _ & H).
  apply parseSelectorArgumentBody_inv in H as (_ & H).
  destruct (H eq_refl) as (argPat & bodyPat & init & Ha & Hb & _).
  destruct st. cbn in *. eauto.
Qed.

Lemma parseSelectorArguments_inv fuel st P st' P' :
  parseSelectorArguments fuel st P = Done (false, st') P' ->
  exists argRest bodyRest,
    argElts st' = argElts st ++ argRest /\
    bodyElts st' = bodyElts st ++ bodyRest.
Proof.
  revert st P. induction fuel as [|fuel IH]; intros st P; cbn;
    unfold bind, getTok; destruct (Token_is (Tok P) identifier).
  - discriminate.
  - destruct (Token_is (Tok P) l_paren); [discriminate|].
    intros [= <- _]. exists [], []. now rewrite !app_nil_r.
  - destruct (parseSelectorArgument fuel st P) as [[failed st1] P1| |] eqn:H1;
      [|discriminate..].
    destruct failed; [discriminate|]. intros H.
    apply IH in H as (ra & rb & Ha & Hb).
    apply parseSelectorArgument_inv in H1; [|done].
    destruct H1 as (a & b & Ha1 & Hb1).
    exists (a :: ra), (b :: rb). rewrite Ha, Hb, Ha1, Hb1.
    now rewrite <- !app_assoc.
  - destruct (Token_is (Tok P) l_paren); [discriminate|].
    intros [= <- _]. exists [], []. now rewrite !app_nil_r.
Qed.

Lemma parseSelectorFunctionArguments_inv fuel argP bodyP firstPattern P
    lp argElt bodyElt argP' bodyP' P' :
  convertFirstPattern firstPattern P = Done (Some (lp, argElt, bodyElt)) P ->
  parseSelectorFunctionArguments fuel argP bodyP firstPattern P
    = Done (false, argP', bodyP') P' ->
  exists argRest bodyRest rp',
    argP' = argP ++ [TuplePattern lp (argElt :: argRest) rp'] /\
    bodyP' = bodyP ++ [TuplePattern lp (bodyElt :: bodyRest) rp'].
Proof.
  intros Hfirst. unfold parseSelectorFunctionArguments.
  rewrite (bind_Done _ _ _ _ _ Hfirst). intros H.
  apply bind_inv in H as ([failed st] & P1 & Hloop & H).
  destruct failed; [discriminate|]. injection H as <- <- _.
  apply parseSelectorArguments_inv in Hloop as (ra & rb & Ha & Hb).
  cbn in Ha, Hb. exists ra, rb, (rp st). now rewrite Ha, Hb.
Qed.

(** The anonymous pattern of lines 131-140, spelled out. *)
Lemma getFirstSelectorPattern_spec argPattern loc :
  getFirstSelectorPattern argPattern loc =
    match argPattern with
    | TypedPattern _ type => TypedPattern (AnyPattern loc) type
    | _ => AnyPattern loc
    end.
Proof. reflexivity. Qed.

(** C4: the first clause of a selector-style signature.  A ParenPattern
    gives its sub-pattern as the first body element and a fresh AnyPattern
    as the first argument element, under a TypedPattern with the same type
    exactly when the sub-pattern is typed; a one-field TuplePattern gives
    that field as body element and the anonymous pattern with the field's
    initializer and vararg base type as argument element; a TuplePattern
    with another number of fields fails with
    func_selector_with_not_one_argument. *)
Theorem C4_first_selector_clause fuel argP bodyP P :
  (forall LPLoc sub RPLoc,
     let first := ParenPattern LPLoc sub RPLoc in
     let anon := AnyPattern (getLoc first) in
     let argPat := match sub with
                   | TypedPattern _ type => TypedPattern anon type
                   | _ => anon
                   end in
     convertFirstPattern first P =
       Done (Some (LPLoc, mkTuplePatternElt argPat None None,
                   mkTuplePatternElt sub None None)) P /\
     forall argP' bodyP' P',
       parseSelectorFunctionArguments fuel argP bodyP first P
         = Done (false, argP', bodyP') P' ->
       exists argRest bodyRest rp',
         argP' = argP ++
           [TuplePattern LPLoc
              (mkTuplePatternElt argPat None None :: argRest) rp'] /\
         bodyP' = bodyP ++
           [TuplePattern LPLoc
              (mkTuplePatternElt sub None None :: bodyRest) rp']) /\
  (forall LPLoc firstElt RPLoc,
     let first := TuplePattern LPLoc [firstElt] RPLoc in
     let anon := AnyPattern (getLoc first) in
     let argPat := match getPattern firstElt with
                   | TypedPattern _ type => TypedPattern anon type
                   | _ => anon
                   end in
     let argElt :=
       mkTuplePatternElt argPat (getInit firstElt)
         (getVarargBaseType firstElt) in
     convertFirstPattern first P = Done (Some (NoLoc, argElt, firstElt)) P /\
     forall argP' bodyP' P',
       parseSelectorFunctionArguments fuel argP bodyP first P
         = Done (false, argP', bodyP') P' ->
       exists argRest bodyRest rp',
         argP' = argP ++ [TuplePattern NoLoc (argElt :: argRest) rp'] /\
         bodyP' = bodyP ++ [TuplePattern NoLoc (firstElt :: bodyRest) rp']) /\
  (forall LPLoc fields RPLoc,
     length fields <> 1 ->
     parseSelectorFunctionArguments fuel argP bodyP
       (TuplePattern LPLoc fields RPLoc) P =
       Done (true, argP, bodyP)
         (emit (Diag (getTokLoc (Tok P)) func_selector_with_not_one_argument)
            P)).
Proof.
  split; [|split].
  - intros LPLoc sub RPLoc first anon argPat.
    assert (Hconv : convertFirstPattern first P =
              Done (Some (LPLoc, mkTuplePatternElt argPat None None,
                          mkTuplePatternElt sub None None)) P)
      by reflexivity.
    split; [exact Hconv|]. intros argP' bodyP' P'.
    now apply parseSelectorFunctionArguments_inv.
  - intros LPLoc firstElt RPLoc first anon argPat argElt.
    assert (Hconv : convertFirstPattern first P =
              Done (Some (NoLoc, argElt, firstElt)) P) by reflexivity.
    split; [exact Hconv|]. intros argP' bodyP' P'.
    now apply parseSelectorFunctionArguments_inv.
  - intros LPLoc fields RPLoc Hlen.
    destruct fields as [|e [|e' fields]]; [reflexivity| |reflexivity].
    now destruct Hlen.
Qed.


(** C5: a selector clause whose name is already in the selector-name table
    gets a redefinition diagnostic and is then parsed like any other
    clause: the table is left as it was (the first binding stays), a
    successful clause appends its element to both lists, and a signature
    with such a clause can parse successfully. *)
Theorem C5_duplicate_selector_name :
  (forall fuel st P prev,
     Token_is (Tok P) identifier = true ->
     getText (Tok P) <> "_" ->
     selectorNames st !! getText (Tok P) = Some prev ->
     let decl := mkVarDecl (getTokLoc (Tok P)) (getText (Tok P)) in
     parseSelectorArgument fuel st P =
       parseSelectorArgumentBody fuel (NamedPattern decl) st
         (emit (Redefinition prev decl) (advance P)) /\
     forall failed st' P',
       parseSelectorArgument fuel st P = Done (failed, st') P' ->
       selectorNames st' = selectorNames st /\
       (failed = false ->
        exists argPat bodyPat init,
          argElts st' = argElts st ++ [TuplePatternElt2 argPat init] /\
          bodyElts st' = bodyElts st ++ [TuplePatternElt2 bodyPat init] /\
          (argPat = NamedPattern decl \/
           exists sub type,
             argPat = TypedPattern (NamedPattern decl) type /\
             bodyPat = TypedPattern sub type))) /\
  (forall fuel,
     let to1 := mkVarDecl 4 "to" in
     let to2 := mkVarDecl 8 "to" in
     let first :=
       TuplePattern 1 [mkTuplePatternElt (NamedPattern (mkVarDecl 2 "a"))
                         None None] 3 in
     parseFunctionArguments (S (S fuel)) [] [] Demo.duplicateSelectorInput =
       Done (false,
             [TuplePattern NoLoc
                [mkTuplePatternElt (AnyPattern (getLoc first)) None None;
                 mkTuplePatternElt (NamedPattern to1) None None;
                 mkTuplePatternElt (NamedPattern to2) None None] 11],
             [TuplePattern NoLoc
                [mkTuplePatternElt (NamedPattern (mkVarDecl 2 "a")) None None;
                 mkTuplePatternElt (NamedPattern (mkVarDecl 6 "b")) None None;
                 mkTuplePatternElt (NamedPattern (mkVarDecl 10 "c")) None None]
                11])
            (mkParser [] [Redefinition to1 to2])).
Proof.
  split.
  - intros fuel st P prev Hid Hname Hdup decl.
    assert (Heq : parseSelectorArgument fuel st P =
              parseSelectorArgumentBody fuel (NamedPattern decl) st
                (emit (Redefinition prev decl) (advance P))).
    { unfold parseSelectorArgument.
      rewrite (bind_Done _ _ _ _ _ (parsePatternIdentifier_named P Hid Hname)).
      fold decl.
      rewrite (bind_Done _ _ _ _ _
                 (checkSelectorName_duplicate decl prev _ _ Hdup)).
      now destruct st. }
    split; [exact Heq|]. intros failed st' P'. rewrite Heq.
    apply parseSelectorArgumentBody_inv.
  - intros fuel. destruct fuel; reflexivity.
Qed.

End Properties.

(** * Fuel

    More fuel never changes a result, and with more fuel than tokens every
    routine returns, provided the external parsers only move forward. *)

Section Fuel.
Context {sema : Sema} {collab : Collaborators}.

Lemma extends_refl {A} (c : M A) : extends c c.
Proof. now intros P a P'. Qed.

Lemma extends_bind {A B} (c c' : M A) (k k' : A -> M B) :
  extends c c' -> (forall a, extends (k a) (k' a)) ->
  extends (bind c k) (bind c' k').
Proof.
  intros Hc Hk P b P' H. apply bind_inv in H as (a & P1 & H1 & H2).
  rewrite (bind_Done _ _ _ _ _ (Hc _ _ _ H1)). now apply Hk.
Qed.

Lemma parseList_loop_extends {St} RightK SeparatorK ErrorDiag
    (cb cb' : St -> M (bool * St)) :
  (forall s, extends (cb s) (cb' s)) ->
  forall n m s, n <= m ->
    extends (parseList_loop RightK SeparatorK ErrorDiag cb n s)
            (parseList_loop RightK SeparatorK ErrorDiag cb' m s).
Proof.
  intros Hcb. induction n as [|n IH]; intros m s Hle.
  - intros P a P'. discriminate.
  - destruct m as [|m]; [lia|]. cbn.
    apply extends_bind; [apply Hcb|]. intros [[|] s']; [apply extends_refl|].
    apply extends_bind; [apply extends_refl|]. intros t.
    destruct (Token_is t SeparatorK); [|apply extends_refl].
    apply extends_bind; [apply extends_refl|]. intros _. apply IH. lia.
Qed.

Lemma parsePatternTupleWith_extends (atom atom' : M (NullablePtr Pattern))
    n m allow :
  extends atom atom' -> n <= m ->
  extends (parsePatternTupleWith atom n allow)
          (parsePatternTupleWith atom' m allow).
Proof.
  intros Hatom Hle. unfold parsePatternTupleWith.
  apply extends_bind; [apply extends_refl|]. intros LPLoc.
  apply extends_bind; [|intros r; apply extends_refl].
  unfold parseTupleElementsWith, parseList.
  apply extends_bind; [apply extends_refl|]. intros t.
  destruct (Token_is t r_paren); [apply extends_refl|].
  apply parseList_loop_extends; [|done]. intros elts.
  unfold addTupleElement.
  apply extends_bind; [|intros r; apply extends_refl].
  unfold parsePatternTupleElementWith.
  apply extends_bind; [|intros r; apply extends_refl].
  unfold parsePatternWith.
  apply extends_bind; [done|intros r; apply extends_refl].
Qed.

(** More fuel never changes a result. *)
Lemma parsePatternAtom_fuel n m :
  n <= m -> extends (parsePatternAtom n) (parsePatternAtom m).
Proof.
  revert m. induction n as [|n IH]; intros m Hle;
    rewrite !parsePatternAtom_unfold;
    (apply extends_bind; [apply extends_refl|]); intros t;
    destruct (getKind t); try apply extends_refl.
  - intros P a P'. discriminate.
  - destruct m as [|m]; [lia|].
    apply parsePatternTupleWith_extends; [apply IH|]; lia.
Qed.

Lemma parsePatternTuple_fuel n m allow :
  n <= m -> extends (parsePatternTuple n allow) (parsePatternTuple m allow).
Proof.
  intros Hle. apply parsePatternTupleWith_extends; [|done].
  now apply parsePatternAtom_fuel.
Qed.

Lemma parsePatternTupleElement_fuel n m allow :
  n <= m ->
  extends (parsePatternTupleElement n allow) (parsePatternTupleElement m allow).
Proof.
  intros Hle. unfold parsePatternTupleElement, parsePatternTupleElementWith.
  apply extends_bind; [|intros r; apply extends_refl].
  unfold parsePatternWith.
  apply extends_bind; [|intros r; apply extends_refl].
  now apply parsePatternAtom_fuel.
Qed.

Lemma parseSelectorArguments_fuel n m st :
  n <= m -> extends (parseSelectorArguments n st) (parseSelectorArguments m st).
Proof.
  revert m st. induction n as [|n IH]; intros m st Hle; destruct m as [|m];
    try lia; cbn; try apply extends_refl;
    (apply extends_bind; [apply extends_refl|]); intros t;
    destruct (Token_is t identifier); try apply extends_refl.
  - intros P a P'. discriminate.
  - apply extends_bind.
    + unfold parseSelectorArgument.
      apply extends_bind; [apply extends_refl|]. intros [argPattern|];
        [|apply extends_refl].
      apply extends_bind; [apply extends_refl|]. intros names.
      unfold parseSelectorArgumentBody.
      apply extends_bind; [apply extends_refl|]. intros t1.
      destruct (Token_isNot t1 l_paren); [apply extends_refl|].
      apply extends_bind; [apply extends_refl|]. intros _.
      apply extends_bind; [apply extends_refl|]. intros t2.
      destruct (Token_is t2 r_paren); [apply extends_refl|].
      apply extends_bind; [|intros r; apply extends_refl].
      apply parsePatternAtom_fuel. lia.
    + intros [[|] st']; [apply extends_refl|]. apply IH. lia.
Qed.

Lemma parseCurriedFunctionArguments_fuel n m argP bodyP :
  n <= m ->
  extends (parseCurriedFunctionArguments n argP bodyP)
          (parseCurriedFunctionArguments m argP bodyP).
Proof.
  revert m argP bodyP.
  induction n as [|n IH]; intros m argP bodyP Hle; destruct m as [|m];
    try lia; cbn; try apply extends_refl;
    (apply extends_bind; [apply extends_refl|]); intros t;
    destruct (Token_is t l_paren); try apply extends_refl.
  - intros P a P'. discriminate.
  - apply extends_bind; [apply parsePatternTuple_fuel; lia|].
    intros [pat|]; [|apply extends_refl]. apply IH. lia.
Qed.

(** The result of a signature parse does not depend on the fuel that was
    enough to reach it. *)
Lemma parseFunctionArguments_fuel n m argP bodyP :
  n <= m ->
  extends (parseFunctionArguments n argP bodyP)
          (parseFunctionArguments m argP bodyP).
Proof.
  intros Hle. unfold parseFunctionArguments.
  apply extends_bind; [now apply parsePatternTuple_fuel|].
  intros [firstPattern|]; [|apply extends_refl].
  apply extends_bind; [apply extends_refl|]. intros t.
  destruct (Token_is t identifier).
  - unfold parseSelectorFunctionArguments.
    apply extends_bind; [apply extends_refl|].
    intros [[[lp argElt] bodyElt]|]; [|apply extends_refl].
    apply extends_bind; [|intros r; apply extends_refl].
    now apply parseSelectorArguments_fuel.
  - now apply parseCurriedFunctionArguments_fuel.
Qed.

End Fuel.

Section Termination.
Context {sema : Sema} {collab : Collaborators}.

(** The external parsers only move the cursor forward. *)
Hypothesis parseExpr_forward :
  forall d P, remaining (parseExpr d P).2 <= remaining P.
Hypothesis parseTypeAnnotation_forward :
  forall P, remaining (parseTypeAnnotation P).2 <= remaining P.

Lemma returns_bind {A B} (c : M A) (k : A -> M B) P Q :
  returns c P (fun a P' => returns (k a) P' Q) -> returns (bind c k) P Q.
Proof. unfold returns, bind. now destruct (c P). Qed.

Lemma returns_weaken {A} (c : M A) P (Q Q' : A -> Parser -> Prop) :
  returns c P Q -> (forall a P', Q a P' -> Q' a P') -> returns c P Q'.
Proof. unfold returns. destruct (c P); auto. Qed.

Lemma remaining_advance P : remaining (advance P) <= remaining P.
Proof. unfold remaining, advance. cbn. destruct (Toks P); cbn; lia. Qed.

Lemma remaining_advance_lt P k :
  Token_is (Tok P) k = true -> k <> eof ->
  remaining (advance P) < remaining P.
Proof.
  unfold remaining, advance, Tok, Token_is. cbn.
  destruct (Toks P); cbn; [|lia].
  intros H Hk. apply bool_decide_eq_true_1 in H. cbn in H. congruence.
Qed.

Lemma getKind_Token_is t k : getKind t = k -> Token_is t k = true.
Proof. intros H. unfold Token_is. now apply bool_decide_eq_true_2. Qed.

Lemma skipUntil_toks_length k ts : length (skipUntil_toks k ts) <= length ts.
Proof.
  induction ts as [|t ts IH]; cbn; [lia|].
  destruct (Token_is t k); cbn; lia.
Qed.

Lemma parsePatternIdentifier_forward P :
  returns parsePatternIdentifier P (forward is_Some P).
Proof.
  unfold parsePatternIdentifier, returns, bind, getTok, consumeIf, bind, getTok.
  destruct (Token_is (Tok P) identifier) eqn:E; cbn.
  - pose proof (remaining_advance_lt P identifier E ltac:(discriminate)).
    destruct (bool_decide _); cbn; split; intros; lia.
  - split; [lia|]. now intros [? [=]].
Qed.

Lemma parsePatternWith_forward atom P :
  returns atom P (forward is_Some P) ->
  returns (parsePatternWith atom) P (forward is_Some P).
Proof.
  intros Hatom. unfold parsePatternWith. apply returns_bind.
  apply (returns_weaken _ _ _ _ Hatom). intros [pat|] P1 [Hle Hlt].
  2:{ cbn. split; [done|]. now intros [? [=]]. }
  specialize (Hlt ltac:(eauto)).
  unfold returns, bind, consumeIf, bind, getTok.
  destruct (Token_is (Tok P1) colon); cbn.
  - unfold ext. pose proof (parseTypeAnnotation_forward (advance P1)) as Hty.
    pose proof (remaining_advance P1).
    destruct (parseTypeAnnotation (advance P1)) as [[ty|] P2]; cbn in *;
      split; intros; lia.
  - split; intros; lia.
Qed.

Lemma parseOptionalInitializer_forward allow P :
  returns (parseOptionalInitializer allow) P (forward (fun _ => False) P).
Proof.
  unfold parseOptionalInitializer, returns, bind, getTok.
  destruct (Token_is (Tok P) equal); cbn; [|split; [lia|done]].
  pose proof (remaining_advance P).
  destruct allow; cbn; unfold ext.
  - pose proof (parseExpr_forward expected_initializer_expr (advance P)) as He.
    destruct (parseExpr _ (advance P)) as [[e|] P2]; cbn in *;
      (split; [lia|done]).
  - pose proof (parseExpr_forward expected_initializer_expr
                  (emit (Diag (getTokLoc (Tok P)) non_func_decl_pattern_init)
                     (advance P))) as He.
    destruct (parseExpr _ _) as [[e|] P2]; cbn in *; (split; [lia|done]).
Qed.

Lemma parseOptionalEllipsis_forward pat init P :
  returns (parseOptionalEllipsis pat init) P (forward (fun _ => False) P).
Proof.
  destruct (Token_is (Tok P) ellipsis) eqn:E; unfold returns.
  - pose proof (remaining_advance P).
    destruct init as [e|].
    + rewrite parseOptionalEllipsis_init by done. split; [done|done].
    + destruct pat as [loc|decl|sub tl|lp sub rp|lp fs rp].
      3: { rewrite parseOptionalEllipsis_typed by done. split; done. }
      all: rewrite parseOptionalEllipsis_untyped by done; split; done.
  - rewrite parseOptionalEllipsis_absent by done. split; [lia|done].
Qed.

Lemma parsePatternTupleElementWith_forward atom allow P :
  returns atom P (forward is_Some P) ->
  returns (parsePatternTupleElementWith atom allow) P (forward is_Some P).
Proof.
  intros Hatom. unfold parsePatternTupleElementWith. apply returns_bind.
  apply (returns_weaken _ _ _ _ (parsePatternWith_forward _ _ Hatom)).
  intros [pat|] P1 [Hle Hlt].
  2:{ cbn. split; [done|]. now intros [? [=]]. }
  specialize (Hlt ltac:(eauto)). apply returns_bind.
  apply (returns_weaken _ _ _ _ (parseOptionalInitializer_forward allow P1)).
  intros init P2 [Hle2 _].
  apply (returns_weaken _ _ _ _ (parseOptionalEllipsis_forward pat init P2)).
  intros elt P3 [Hle3 _]. split; intros; lia.
Qed.

Lemma addTupleElement_forward atom allow elts P :
  returns atom P (forward is_Some P) ->
  returns (addTupleElement atom allow elts) P
    (forward (fun r => r.1 = false) P).
Proof.
  intros Hatom. unfold addTupleElement. apply returns_bind.
  apply (returns_weaken _ _ _ _
           (parsePatternTupleElementWith_forward _ allow _ Hatom)).
  intros [e|] P1 [Hle Hlt].
  2:{ cbn. split; [done|]. discriminate. }
  specialize (Hlt ltac:(eauto)).
  destruct (last elts) as [b|]; [destruct (isVararg b)|]; cbn;
    split; intros; done.
Qed.

Lemma parseList_loop_returns {St} RightK SeparatorK ErrorDiag
    (cb : St -> M (bool * St)) bound :
  (forall s P, remaining P <= bound ->
     returns (cb s) P (forward (fun r => r.1 = false) P)) ->
  forall fuel s P,
    remaining P < fuel -> remaining P <= bound ->
    returns (parseList_loop RightK SeparatorK ErrorDiag cb fuel s) P
      (forward (fun _ => False) P).
Proof.
  intros Hcb. induction fuel as [|fuel IH]; intros s P Hfuel Hbound; [lia|].
  cbn. apply returns_bind.
  apply (returns_weaken _ _ _ _ (Hcb s P Hbound)).
  intros [[|] s1] P1 [Hle Hlt]; cbn in *.
  { split; [done|done]. }
  specialize (Hlt eq_refl).
  unfold returns, bind, getTok.
  pose proof (remaining_advance P1).
  destruct (Token_is (Tok P1) SeparatorK); cbn.
  - assert (Hrec : returns
              (parseList_loop RightK SeparatorK ErrorDiag cb fuel s1)
              (advance P1) (forward (fun _ => False) (advance P1)))
      by (apply IH; unfold remaining in *; cbn in *; lia).
    unfold returns in Hrec.
    destruct (parseList_loop _ _ _ _ _ _ _) as [r P2| |]; [|done..].
    destruct Hrec as [Hrec _]. split; [lia|done].
  - destruct (Token_is (Tok P1) RightK); cbn;
      (split; [unfold remaining in *; cbn in *; lia|done]).
Qed.

Lemma parsePatternTupleWith_returns atom fuel allow P :
  (forall Q, remaining Q < remaining P ->
     returns atom Q (forward is_Some Q)) ->
  remaining P <= fuel ->
  returns (parsePatternTupleWith atom fuel allow) P (forward is_Some P).
Proof.
  intros Hatom Hfuel. unfold parsePatternTupleWith. apply returns_bind.
  unfold returns at 1, consumeTokenK, bind, getTok.
  destruct (Token_is (Tok P) l_paren) eqn:Hlp; [|done].
  pose proof (remaining_advance_lt P l_paren Hlp ltac:(discriminate)) as Hlt.
  cbn. apply returns_bind.
  assert (Hbody : returns (parseTupleElementsWith atom fuel allow) (advance P)
                    (forward (fun _ => False) (advance P))).
  { unfold parseTupleElementsWith, parseList. apply returns_bind.
    unfold returns at 1, getTok.
    destruct (Token_is (Tok (advance P)) r_paren).
    - unfold returns, bind, consumeToken. cbn.
      pose proof (remaining_advance (advance P)). split; [done|done].
    - apply (parseList_loop_returns _ _ _ _ (remaining (advance P)));
        [|lia|lia].
      intros elts Q HQ. apply addTupleElement_forward. apply Hatom. lia. }
  apply (returns_weaken _ _ _ _ Hbody).
  intros [[Invalid elts] RPLoc] P1 [Hle _].
  destruct Invalid; cbn; split; intros; lia.
Qed.

(** With more fuel than tokens the atom parser returns. *)
Lemma parsePatternAtom_returns fuel :
  forall P, remaining P < fuel ->
    returns (parsePatternAtom fuel) P (forward is_Some P).
Proof.
  induction fuel as [|fuel IH]; intros P Hfuel;
    rewrite parsePatternAtom_unfold; apply returns_bind;
    unfold returns at 1, getTok;
    destruct (getKind (Tok P)) eqn:Hk;
    try apply parsePatternIdentifier_forward;
    try (cbn; split; [lia|now intros [? [=]]]);
    try (cbn; pose proof (remaining_advance P); split;
         [done|now intros [? [=]]]).
  - pose proof (remaining_advance_lt P l_paren (getKind_Token_is _ _ Hk)
                  ltac:(discriminate)). lia.
  - apply parsePatternTupleWith_returns.
    + intros Q HQ. apply IH. lia.
    + pose proof (remaining_advance_lt P l_paren (getKind_Token_is _ _ Hk)
                    ltac:(discriminate)). lia.
Qed.


Lemma parsePatternTuple_returns fuel allow P :
  remaining P <= fuel ->
  returns (parsePatternTuple fuel allow) P (forward is_Some P).
Proof.
  intros Hfuel. apply parsePatternTupleWith_returns; [|done].
  intros Q HQ. apply parsePatternAtom_returns. lia.
Qed.

Lemma parsePatternTupleElement_returns fuel allow P :
  remaining P < fuel ->
  returns (parsePatternTupleElement fuel allow) P (forward is_Some P).
Proof.
  intros Hfuel. apply parsePatternTupleElementWith_forward.
  now apply parsePatternAtom_returns.
Qed.

Ltac tokens :=
  unfold within, forward, remaining, advance, emit in *; cbn in *; lia.

Lemma skipUntil_within k P n :
  remaining P <= n -> returns (skipUntil k) P (within n).
Proof.
  intros H. unfold returns, skipUntil, within, remaining in *. cbn.
  pose proof (skipUntil_toks_length k (Toks P)). lia.
Qed.

Lemma consumeIf_within k P n :
  remaining P <= n -> returns (consumeIf k) P (within n).
Proof.
  intros H. unfold returns, consumeIf, bind, getTok.
  pose proof (remaining_advance P).
  destruct (Token_is (Tok P) k); cbn; tokens.
Qed.

Lemma parseSelectorArgumentClose_returns st a b init P n :
  remaining P <= n ->
  returns (parseSelectorArgumentClose st a b init) P (within n).
Proof.
  intros HP. unfold parseSelectorArgumentClose. apply returns_bind.
  unfold returns at 1, getTok. destruct (Token_is (Tok P) comma).
  - apply returns_bind. unfold returns at 1, diagnose. apply returns_bind.
    apply (returns_weaken _ _ _ _ (skipUntil_within r_paren (emit _ P) n HP)).
    intros u Q HQ. exact HQ.
  - unfold Token_isNot. destruct (Token_is (Tok P) r_paren) eqn:Hrp; cbn.
    + unfold returns, bind, consumeTokenK, bind, getTok. rewrite Hrp. cbn.
      pose proof (remaining_advance P). tokens.
    + exact HP.
Qed.

Lemma parseSelectorArgumentInit_returns st a b P n :
  remaining P <= n ->
  returns (parseSelectorArgumentInit st a b) P (within n).
Proof.
  intros HP. unfold parseSelectorArgumentInit. apply returns_bind.
  apply (returns_weaken _ _ _ _ (consumeIf_within equal P n HP)).
  intros [|] P1 HP1; [|now apply parseSelectorArgumentClose_returns].
  apply returns_bind. unfold returns at 1, ext.
  pose proof (parseExpr_forward expected_initializer_expr P1) as He.
  destruct (parseExpr expected_initializer_expr P1) as [[e|] P2]; cbn in He.
  - apply parseSelectorArgumentClose_returns. tokens.
  - apply returns_bind.
    apply (returns_weaken _ _ _ _
             (skipUntil_within r_paren P2 n ltac:(tokens))).
    intros u Q HQ. exact HQ.
Qed.

Lemma parseSelectorArgumentBody_returns fuel argPattern st P :
  remaining P < fuel ->
  returns (parseSelectorArgumentBody fuel argPattern st) P
    (within (remaining P)).
Proof.
  intros Hfuel. unfold parseSelectorArgumentBody.
  apply returns_bind. unfold returns at 1, getTok.
  destruct (Token_isNot (Tok P) l_paren); [cbn; tokens|].
  apply returns_bind. unfold returns at 1, consumeToken.
  pose proof (remaining_advance P) as Hadv.
  apply returns_bind. unfold returns at 1, getTok.
  destruct (Token_is (Tok (advance P)) r_paren); [cbn; tokens|].
  apply returns_bind.
  apply (returns_weaken _ _ _ _
           (parsePatternAtom_returns fuel (advance P) ltac:(lia))).
  intros [bodyPattern|] P1 [Hle _].
  - apply returns_bind.
    apply (returns_weaken _ _ _ _
             (consumeIf_within colon P1 (remaining P) ltac:(lia))).
    intros [|] P2 HP2; [|now apply parseSelectorArgumentInit_returns].
    apply returns_bind. unfold returns at 1, ext.
    pose proof (parseTypeAnnotation_forward P2) as Hty.
    destruct (parseTypeAnnotation P2) as [[ty|] P3]; cbn in Hty.
    + apply parseSelectorArgumentInit_returns. tokens.
    + apply returns_bind.
      apply (returns_weaken _ _ _ _
               (skipUntil_within r_paren P3 (remaining P) ltac:(tokens))).
      intros u Q HQ. exact HQ.
  - apply returns_bind.
    apply (returns_weaken _ _ _ _
             (skipUntil_within r_paren P1 (remaining P) ltac:(lia))).
    intros u Q HQ. exact HQ.
Qed.

Lemma checkSelectorName_returns argPattern names P :
  returns (checkSelectorName argPattern names) P
    (fun _ P' => remaining P' = remaining P).
Proof.
  unfold returns, checkSelectorName.
  destruct argPattern; try reflexivity.
  destruct (names !! VarDecl_getName decl); reflexivity.
Qed.

Lemma parseSelectorArgument_returns fuel st P :
  Token_is (Tok P) identifier = true ->
  remaining P <= fuel ->
  returns (parseSelectorArgument fuel st) P
    (fun _ P' => remaining P' < remaining P).
Proof.
  intros Hid Hfuel. unfold parseSelectorArgument. apply returns_bind.
  pose proof (remaining_advance_lt P identifier Hid ltac:(discriminate)) as Hlt.
  unfold returns at 1, parsePatternIdentifier, bind, getTok, consumeIf, bind,
    getTok.
  rewrite Hid. cbn.
  assert (Hrest : forall argPattern,
            returns
              (names <- checkSelectorName argPattern (selectorNames st) ;;
               parseSelectorArgumentBody fuel argPattern
                 (setSelectorNames st names)) (advance P)
              (fun _ P' => remaining P' < remaining P)).
  { intros argPattern. apply returns_bind.
    apply (returns_weaken _ _ _ _ (checkSelectorName_returns _ _ _)).
    intros names P1 HP1.
    apply (returns_weaken _ _ _ _
             (parseSelectorArgumentBody_returns fuel argPattern _ P1
                ltac:(lia))).
    intros r P2 HP2. unfold within in HP2. lia. }
  destruct (bool_decide _); apply Hrest.
Qed.

Lemma parseSelectorArguments_returns fuel :
  forall st P, remaining P < fuel ->
    returns (parseSelectorArguments fuel st) P (within (remaining P)).
Proof.
  induction fuel as [|fuel IH]; intros st P Hfuel; [lia|].
  cbn. apply returns_bind. unfold returns at 1, getTok.
  destruct (Token_is (Tok P) identifier) eqn:Hid.
  - apply returns_bind.
    apply (returns_weaken _ _ _ _
             (parseSelectorArgument_returns fuel st P Hid ltac:(lia))).
    intros [[|] st'] P1 HP1; [cbn; tokens|].
    apply (returns_weaken _ _ _ _ (IH st' P1 ltac:(lia))).
    intros r P2 HP2. tokens.
  - destruct (Token_is (Tok P) l_paren); cbn; tokens.
Qed.

Lemma parseCurriedFunctionArguments_returns fuel :
  forall argP bodyP P, remaining P < fuel ->
    returns (parseCurriedFunctionArguments fuel argP bodyP) P
      (within (remaining P)).
Proof.
  induction fuel as [|fuel IH]; intros argP bodyP P Hfuel; [lia|].
  cbn. apply returns_bind. unfold returns at 1, getTok.
  destruct (Token_is (Tok P) l_paren) eqn:Hlp; [|cbn; tokens].
  apply returns_bind.
  apply (returns_weaken _ _ _ _
           (parsePatternTuple_returns fuel true P ltac:(lia))).
  intros [pat|] P1 [Hle Hlt]; [|cbn; tokens].
  specialize (Hlt ltac:(eauto)).
  apply (returns_weaken _ _ _ _ (IH _ _ P1 ltac:(lia))).
  intros r P2 HP2. tokens.
Qed.

(** With more fuel than tokens, the signature parser returns: the fuel of
    the model is not what makes a parse fail. *)
Theorem parseFunctionArguments_returns fuel argP bodyP P :
  remaining P < fuel ->
  returns (parseFunctionArguments fuel argP bodyP) P (within (remaining P)).
Proof.
  intros Hfuel. unfold parseFunctionArguments. apply returns_bind.
  apply (returns_weaken _ _ _ _
           (parsePatternTuple_returns fuel true P ltac:(lia))).
  intros [firstPattern|] P1 [Hle _]; [|cbn; tokens].
  apply returns_bind. unfold returns at 1, getTok.
  destruct (Token_is (Tok P1) identifier).
  - unfold parseSelectorFunctionArguments. apply returns_bind.
    assert (Hconv : returns (convertFirstPattern firstPattern) P1
                      (fun _ P' => remaining P' = remaining P1)).
    { unfold returns, convertFirstPattern.
      destruct firstPattern as [| | | |lp fields rp]; try done.
      destruct fields as [|e [|e' fields]]; reflexivity. }
    apply (returns_weaken _ _ _ _ Hconv).
    intros [[[lp argElt] bodyElt]|] P2 HP2; [|cbn; tokens].
    apply returns_bind.
    apply (returns_weaken _ _ _ _
             (parseSelectorArguments_returns fuel _ P2 ltac:(lia))).
    intros [[|] st] P3 HP3; cbn; tokens.
  - apply (returns_weaken _ _ _ _
             (parseCurriedFunctionArguments_returns fuel _ _ P1 ltac:(lia))).
    intros r P2 HP2. tokens.
Qed.

Lemma returns_not_OutOfFuel {A} (c : M A) P Q :
  returns c P Q -> c P <> OutOfFuel.
Proof. unfold returns. intros H E. now rewrite E in H. Qed.

Corollary parsePatternTupleElement_enough_fuel allow P :
  parsePatternTupleElement (S (remaining P)) allow P <> OutOfFuel.
Proof.
  apply (returns_not_OutOfFuel _ _ _
           (parsePatternTupleElement_returns (S (remaining P)) allow P
              ltac:(lia))).
Qed.

Corollary parsePatternTuple_enough_fuel allow P :
  parsePatternTuple (S (remaining P)) allow P <> OutOfFuel.
Proof.
  apply (returns_not_OutOfFuel _ _ _
           (parsePatternTuple_returns (S (remaining P)) allow P ltac:(lia))).
Qed.

Corollary parseFunctionArguments_enough_fuel argP bodyP P :
  parseFunctionArguments (S (remaining P)) argP bodyP P <> OutOfFuel.
Proof.
  apply (returns_not_OutOfFuel _ _ _
           (parseFunctionArguments_returns (S (remaining P)) argP bodyP P
              ltac:(lia))).
Qed.

End Termination.

(** The collaborators of [Demo] only move the cursor forward. *)
Lemma demoParseExpr_forward d P :
  remaining (Demo.demoParseExpr d P).2 <= remaining P.
Proof.
  unfold Demo.demoParseExpr. pose proof (remaining_advance P).
  destruct (Token_is (Tok P) Demo.literal); cbn; [done|].
  unfold remaining. cbn. lia.
Qed.

Lemma demoParseType_forward P :
  remaining (Demo.demoParseType P).2 <= remaining P.
Proof.
  unfold Demo.demoParseType. pose proof (remaining_advance P).
  destruct (Token_is (Tok P) identifier); cbn; [done|lia].
Qed.

(** On every token stream the signature parser of [Demo] returns. *)
Corollary demo_parseFunctionArguments_enough_fuel P :
  @parseFunctionArguments Demo.demoSema Demo.demoCollaborators
    (S (remaining P)) [] [] P <> OutOfFuel.
Proof.
  apply (@parseFunctionArguments_enough_fuel Demo.demoSema
           Demo.demoCollaborators);
    [exact demoParseExpr_forward|exact demoParseType_forward].
Qed.

(** * Further properties

    Shapes of the trees, the two parallel trees of a signature, the
    selector-name table, assertions, diagnostics and progress. *)

Section Shapes.
Context {sema : Sema} {collab : Collaborators}.

Lemma ensures_bind {A B} (c : M A) (k : A -> M B) P Q :
  ensures c P (fun a P1 => ensures (k a) P1 Q) -> ensures (bind c k) P Q.
Proof.
  intros H b P' Hb. apply bind_inv in Hb as (a & P1 & Ha & Hk).
  exact (H a P1 Ha b P' Hk).
Qed.

Lemma ensures_weaken {A} (c : M A) P (Q Q' : A -> Parser -> Prop) :
  ensures c P Q -> (forall a P', Q a P' -> Q' a P') -> ensures c P Q'.
Proof. intros H HQ a P' Ha. apply HQ, (H a P' Ha). Qed.

Lemma ensures_ret {A} (a : A) P (Q : A -> Parser -> Prop) :
  Q a P -> ensures (ret a) P Q.
Proof. intros H a' P' [= <- <-]. exact H. Qed.

Lemma parsePatternIdentifier_untyped P p P' :
  parsePatternIdentifier P = Done (Some p) P' -> typeOf p = None.
Proof.
  unfold parsePatternIdentifier, bind, getTok, consumeIf, bind, getTok.
  destruct (Token_is (Tok P) identifier); cbn; [|discriminate].
  destruct (bool_decide _); now intros [= <- _].
Qed.

Lemma tupleOrParen_shape LPLoc elts RPLoc :
  isParenOrTuple (tupleOrParen LPLoc elts RPLoc).
Proof.
  destruct (tupleOrParen_cases LPLoc elts RPLoc)
    as [(e & _ & _ & _ & _ & ->)|[_ ->]]; exact I.
Qed.

Lemma parsePatternTuple_shape fuel allow P p P' :
  parsePatternTuple fuel allow P = Done (Some p) P' -> isParenOrTuple p.
Proof.
  intros H. apply parsePatternTuple_inv in H as (elts & RPLoc & _ & _ & ->).
  apply tupleOrParen_shape.
Qed.

Lemma isParenOrTuple_untyped p : isParenOrTuple p -> typeOf p = None.
Proof. now destruct p. Qed.

Lemma parsePatternAtom_untyped fuel P p P' :
  parsePatternAtom fuel P = Done (Some p) P' -> typeOf p = None.
Proof.
  rewrite parsePatternAtom_unfold. unfold bind, getTok.
  destruct (getKind (Tok P)); try discriminate.
  - apply parsePatternIdentifier_untyped.
  - destruct fuel as [|fuel]; [discriminate|].
    intros H. apply parsePatternTuple_shape in H.
    now apply isParenOrTuple_untyped.
Qed.

(** *** Curried clauses *)

Lemma parseCurriedFunctionArguments_same fuel :
  forall argP bodyP P r argP' bodyP' P',
    parseCurriedFunctionArguments fuel argP bodyP P
      = Done (r, argP', bodyP') P' ->
    exists clauses,
      argP' = argP ++ clauses /\ bodyP' = bodyP ++ clauses /\
      Forall isParenOrTuple clauses /\
      (r = false -> Token_is (Tok P') l_paren = false).
Proof.
  induction fuel as [|fuel IH]; intros argP bodyP P r argP' bodyP' P'; cbn;
    unfold bind, getTok; destruct (Token_is (Tok P) l_paren) eqn:Hlp.
  - discriminate.
  - intros [= <- <- <- <-]. exists []. now rewrite !app_nil_r.
  - destruct (parsePatternTuple fuel true P) as [[pat|] P1| |] eqn:Hpat;
      [| |discriminate..].
    + intros H. apply IH in H as (clauses & -> & -> & Hall & Hstop).
      exists (pat :: clauses). rewrite <- !app_assoc. repeat split; [|done].
      constructor; [|done]. now apply parsePatternTuple_shape in Hpat.
    + intros [= <- <- <- <-]. exists []. now rewrite !app_nil_r.
  - intros [= <- <- <- <-]. exists []. now rewrite !app_nil_r.
Qed.

(** *** Selector clauses *)

Lemma parseSelectorArgumentBody_parallel fuel argPattern st P st' P' :
  typeOf argPattern = None ->
  parseSelectorArgumentBody fuel argPattern st P = Done (false, st') P' ->
  exists a b,
    argElts st' = argElts st ++ [a] /\ bodyElts st' = bodyElts st ++ [b] /\
    parallel a b /\ getVarargBaseType a = None.
Proof.
  intros Harg.
  unfold parseSelectorArgumentBody, parseSelectorArgumentInit,
    parseSelectorArgumentClose.
  unfold bind, getTok, consumeIf, consumeTokenK, consumeToken, diagnose,
    skipUntil, ext, ret, unreachable, bind, getTok.
  intros H.
  repeat (case_match; simplify_eq; cbn in *);
    match goal with
    | Hatom : parsePatternAtom _ _ = Done (Some ?p) _ |- _ =>
        apply parsePatternAtom_untyped in Hatom
    end;
    eexists _, _; (split; [reflexivity|]); (split; [reflexivity|]);
    unfold parallel; cbn; rewrite ?Harg; auto.
Qed.

Lemma parseSelectorArgument_parallel fuel st P st' P' :
  parseSelectorArgument fuel st P = Done (false, st') P' ->
  exists a b,
    argElts st' = argElts st ++ [a] /\ bodyElts st' = bodyElts st ++ [b] /\
    parallel a b /\ getVarargBaseType a = None.
Proof.
  unfold parseSelectorArgument. intros H.
  apply bind_inv in H as ([argPattern|] & P1 & Hid & H); [|discriminate].
  apply parsePatternIdentifier_untyped in Hid.
  apply bind_inv in H as (names & P2 & _ & H).
  apply (parseSelectorArgumentBody_parallel _ _ _ _ _ _ Hid) in H.
  now destruct st.
Qed.

Lemma parseSelectorArguments_parallel fuel :
  forall st P st' P',
    parseSelectorArguments fuel st P = Done (false, st') P' ->
    exists argRest bodyRest,
      argElts st' = argElts st ++ argRest /\
      bodyElts st' = bodyElts st ++ bodyRest /\
      Forall2 parallel argRest bodyRest /\
      Forall (fun a => getVarargBaseType a = None) argRest /\
      Token_is (Tok P') identifier = false /\
      Token_is (Tok P') l_paren = false.
Proof.
  induction fuel as [|fuel IH]; intros st P st' P'; cbn;
    unfold bind, getTok; destruct (Token_is (Tok P) identifier) eqn:Hid.
  - discriminate.
  - destruct (Token_is (Tok P) l_paren) eqn:Hlp; [discriminate|].
    intros [= <- <-]. exists [], []. rewrite !app_nil_r.
    repeat split; done.
  - destruct (parseSelectorArgument fuel st P) as [[failed st1] P1| |] eqn:H1;
      [|discriminate..].
    destruct failed; [discriminate|]. intros H.
    apply IH in H as (ra & rb & Ha & Hb & Hpar & Hva & Hs1 & Hs2).
    apply parseSelectorArgument_parallel in H1
      as (a & b & Ha1 & Hb1 & Hab & Hnv).
    exists (a :: ra), (b :: rb). rewrite Ha, Hb, Ha1, Hb1, <- !app_assoc.
    refine (conj eq_refl (conj eq_refl (conj _ (conj _ (conj Hs1 Hs2)))));
      now constructor.
  - destruct (Token_is (Tok P) l_paren) eqn:Hlp; [discriminate|].
    intros [= <- <-]. exists [], []. rewrite !app_nil_r.
    repeat split; done.
Qed.

Lemma getFirstSelectorPattern_typeOf p loc :
  typeOf (getFirstSelectorPattern p loc) = typeOf p.
Proof. now destruct p. Qed.

Lemma convertFirstPattern_parallel firstPattern P lp a b P' :
  convertFirstPattern firstPattern P = Done (Some (lp, a, b)) P' ->
  parallel a b /\ P' = P.
Proof.
  unfold convertFirstPattern.
  destruct firstPattern as [| | |LPLoc sub RPLoc|LPLoc fields RPLoc];
    try discriminate.
  - intros [= <- <- <- <-]. split; [|done].
    unfold parallel. cbn. now rewrite getFirstSelectorPattern_typeOf.
  - destruct fields as [|e [|e' fields]]; try discriminate.
    intros [= <- <- <- <-]. split; [|done].
    unfold parallel. cbn. now rewrite getFirstSelectorPattern_typeOf.
Qed.


(** *** The selector-name table *)

Lemma checkSelectorName_grows argPattern names P names' P' :
  checkSelectorName argPattern names P = Done names' P' ->
  names ⊆ names' /\ (wellKeyed names -> wellKeyed names').
Proof.
  unfold checkSelectorName.
  destruct argPattern as [|decl| | |]; try (intros [= <- _]; done).
  destruct (names !! VarDecl_getName decl) as [prev|] eqn:Hlook.
  - intros [= <- _]. done.
  - intros [= <- _]. split; [now apply insert_subseteq|].
    intros Hwk id d. rewrite lookup_insert. case_decide as Hid.
    + now intros [= <-].
    + apply Hwk.
Qed.

Lemma parseSelectorArgument_table fuel st P r st' P' :
  parseSelectorArgument fuel st P = Done (r, st') P' ->
  selectorNames st ⊆ selectorNames st' /\
  (wellKeyed (selectorNames st) -> wellKeyed (selectorNames st')).
Proof.
  unfold parseSelectorArgument. intros H.
  apply bind_inv in H as ([argPattern|] & P1 & _ & H); [|discriminate].
  apply bind_inv in H as (names & P2 & Hcheck & H).
  apply parseSelectorArgumentBody_inv in H as [-> _].
  apply checkSelectorName_grows in Hcheck. now destruct st.
Qed.

Lemma parseSelectorArguments_table fuel :
  forall st P r st' P',
    parseSelectorArguments fuel st P = Done (r, st') P' ->
    selectorNames st ⊆ selectorNames st' /\
    (wellKeyed (selectorNames st) -> wellKeyed (selectorNames st')).
Proof.
  induction fuel as [|fuel IH]; intros st P r st' P'; cbn;
    unfold bind, getTok; destruct (Token_is (Tok P) identifier).
  - discriminate.
  - destruct (Token_is (Tok P) l_paren); cbn; now intros [= _ <- _].
  - destruct (parseSelectorArgument fuel st P) as [[failed st1] P1| |] eqn:H1;
      [|discriminate..].
    apply parseSelectorArgument_table in H1 as [Hsub Hwk].
    destruct failed.
    + now intros [= _ <- _].
    + intros H. apply IH in H as [Hsub' Hwk'].
      split; [now transitivity (selectorNames st1)|auto].
  - destruct (Token_is (Tok P) l_paren); cbn; now intros [= _ <- _].
Qed.

(** *** The whole argument list *)

Lemma parseSelectorFunctionArguments_parallel fuel argP bodyP firstPattern P
    argP' bodyP' P' :
  parseSelectorFunctionArguments fuel argP bodyP firstPattern P
    = Done (false, argP', bodyP') P' ->
  exists lp a b argRest bodyRest rp',
    argP' = argP ++ [TuplePattern lp (a :: argRest) rp'] /\
    bodyP' = bodyP ++ [TuplePattern lp (b :: bodyRest) rp'] /\
    Forall2 parallel (a :: argRest) (b :: bodyRest) /\
    Forall (fun e => getVarargBaseType e = None) argRest /\
    Token_is (Tok P') identifier = false /\
    Token_is (Tok P') l_paren = false.
Proof.
  unfold parseSelectorFunctionArguments. intros H.
  apply bind_inv in H as ([[[lp a] b]|] & P1 & Hconv & H); [|discriminate].
  apply convertFirstPattern_parallel in Hconv as [Hab ->].
  apply bind_inv in H as ([failed st] & P2 & Hloop & H).
  destruct failed; [discriminate|]. injection H as <- <- <-.
  apply parseSelectorArguments_parallel in Hloop
    as (ra & rb & Ha & Hb & Hpar & Hva & Hs1 & Hs2).
  cbn in Ha, Hb. exists lp, a, b, ra, rb, (rp st). rewrite Ha, Hb.
  refine (conj eq_refl (conj eq_refl (conj _ (conj Hva (conj Hs1 Hs2))))).
  now constructor.
Qed.

Lemma parseSelectorFunctionArguments_failed fuel argP bodyP firstPattern P
    argP' bodyP' P' :
  parseSelectorFunctionArguments fuel argP bodyP firstPattern P
    = Done (true, argP', bodyP') P' ->
  argP' = argP /\ bodyP' = bodyP.
Proof.
  unfold parseSelectorFunctionArguments. intros H.
  apply bind_inv in H as ([[[lp a] b]|] & P1 & Hconv & H).
  - apply bind_inv in H as ([failed st] & P2 & Hloop & H).
    destruct failed; [|discriminate]. now injection H as <- <- _.
  - now injection H as <- <- _.
Qed.

Lemma parseFunctionArguments_appends fuel argP bodyP P r argP' bodyP' P' :
  parseFunctionArguments fuel argP bodyP P = Done (r, argP', bodyP') P' ->
  exists newArg newBody,
    argP' = argP ++ newArg /\ bodyP' = bodyP ++ newBody /\
    length newArg = length newBody /\
    Forall isParenOrTuple newArg /\ Forall isParenOrTuple newBody /\
    (r = false -> newArg <> [] /\ Token_is (Tok P') l_paren = false).
Proof.
  unfold parseFunctionArguments. intros H.
  apply bind_inv in H as ([firstPattern|] & P1 & Hfirst & H).
  2:{ injection H as <- <- <- _. exists [], []. rewrite !app_nil_r.
      repeat split; done. }
  apply parsePatternTuple_shape in Hfirst.
  unfold bind, getTok in H. destruct (Token_is (Tok P1) identifier).
  - destruct r.
    + apply parseSelectorFunctionArguments_failed in H as [-> ->].
      exists [], []. rewrite !app_nil_r. repeat split; done.
    + apply parseSelectorFunctionArguments_parallel in H
        as (lp & a & b & ra & rb & rp' & -> & -> & _ & _ & _ & Hstop).
      eexists [_], [_]. repeat split; try done; now repeat constructor.
  - apply parseCurriedFunctionArguments_same in H
      as (clauses & -> & -> & Hall & Hstop).
    exists (firstPattern :: clauses), (firstPattern :: clauses).
    rewrite <- !app_assoc.
    repeat split; try done; try now constructor.
    now apply Hstop.
Qed.

End Shapes.

Section Assertions.
Context {sema : Sema} {collab : Collaborators}.

Lemma bind_reachable {A B} (c : M A) (k : A -> M B) P :
  c P <> Unreachable ->
  (forall a P1, c P = Done a P1 -> k a P1 <> Unreachable) ->
  bind c k P <> Unreachable.
Proof.
  unfold bind. intros Hc Hk. destruct (c P) as [a P1| |]; [|done..].
  now apply Hk.
Qed.

Lemma parsePatternIdentifier_reachable P :
  parsePatternIdentifier P <> Unreachable.
Proof.
  unfold parsePatternIdentifier, bind, getTok, consumeIf, bind, getTok.
  destruct (Token_is (Tok P) identifier); cbn; [|done].
  now destruct (bool_decide _).
Qed.

Lemma parsePatternIdentifier_Some P :
  Token_is (Tok P) identifier = true ->
  exists p, parsePatternIdentifier P = Done (Some p) (advance P).
Proof.
  intros Hid.
  unfold parsePatternIdentifier, bind, getTok, consumeIf, bind, getTok.
  rewrite Hid. cbn. destruct (bool_decide _); eauto.
Qed.

Lemma parseOptionalEllipsis_reachable pat init P :
  parseOptionalEllipsis pat init P <> Unreachable.
Proof.
  destruct (Token_is (Tok P) ellipsis) eqn:E.
  - destruct init as [e|].
    + now rewrite parseOptionalEllipsis_init.
    + destruct pat as [loc|decl|sub tl|lp sub rp|lp fs rp].
      3: now rewrite parseOptionalEllipsis_typed.
      all: now rewrite parseOptionalEllipsis_untyped.
  - now rewrite parseOptionalEllipsis_absent.
Qed.

Lemma parsePatternWith_reachable atom P :
  atom P <> Unreachable -> parsePatternWith atom P <> Unreachable.
Proof.
  intros Hatom. unfold parsePatternWith.
  apply bind_reachable; [done|]. intros [pat|] P1 _; [|done].
  unfold bind, consumeIf, bind, getTok, ext.
  destruct (Token_is (Tok P1) colon); cbn; [|done].
  now destruct (parseTypeAnnotation _) as [[ty|] P2].
Qed.

Lemma parsePatternTupleElementWith_reachable atom allow P :
  atom P <> Unreachable ->
  parsePatternTupleElementWith atom allow P <> Unreachable.
Proof.
  intros Hatom. unfold parsePatternTupleElementWith.
  apply bind_reachable; [now apply parsePatternWith_reachable|].
  intros [pat|] P1 _; [|done].
  apply bind_reachable.
  - destruct (parseOptionalInitializer_total allow P1) as (i & P2 & ->). done.
  - intros init P2 _. apply parseOptionalEllipsis_reachable.
Qed.

Lemma addTupleElement_reachable atom allow elts P :
  atom P <> Unreachable -> addTupleElement atom allow elts P <> Unreachable.
Proof.
  intros Hatom. unfold addTupleElement.
  apply bind_reachable; [now apply parsePatternTupleElementWith_reachable|].
  intros [e|] P1 _; [|done].
  now destruct (last elts) as [b|]; [destruct (isVararg b)|].
Qed.

Lemma parseList_loop_reachable {St} RightK SeparatorK ErrorDiag
    (cb : St -> M (bool * St)) :
  (forall s P, cb s P <> Unreachable) ->
  forall fuel s P,
    parseList_loop RightK SeparatorK ErrorDiag cb fuel s P <> Unreachable.
Proof.
  intros Hcb. induction fuel as [|fuel IH]; intros s P; [done|].
  cbn. apply bind_reachable; [apply Hcb|]. intros [[|] s1] P1 _; [done|].
  unfold bind, getTok.
  destruct (Token_is (Tok P1) SeparatorK); cbn; [apply IH|].
  now destruct (Token_is (Tok P1) RightK).
Qed.

Lemma parsePatternTupleWith_reachable atom fuel allow P :
  (forall Q, atom Q <> Unreachable) ->
  Token_is (Tok P) l_paren = true ->
  parsePatternTupleWith atom fuel allow P <> Unreachable.
Proof.
  intros Hatom Hlp. unfold parsePatternTupleWith.
  rewrite (bind_Done _ _ _ _ _ (consumeTokenK_Done _ _ Hlp)).
  apply bind_reachable.
  - unfold parseTupleElementsWith, parseList, bind, getTok.
    destruct (Token_is (Tok (advance P)) r_paren); [done|].
    apply parseList_loop_reachable. intros elts Q.
    now apply addTupleElement_reachable.
  - now intros [[[|] elts] RPLoc] P1 _.
Qed.

Lemma parsePatternAtom_reachable fuel :
  forall P, parsePatternAtom fuel P <> Unreachable.
Proof.
  induction fuel as [|fuel IH]; intros P; rewrite parsePatternAtom_unfold;
    unfold bind, getTok; destruct (getKind (Tok P)) eqn:Hk; try done;
    try apply parsePatternIdentifier_reachable.
  apply parsePatternTupleWith_reachable; [exact IH|now apply getKind_Token_is].
Qed.

Lemma parsePatternTuple_reachable fuel allow P :
  Token_is (Tok P) l_paren = true ->
  parsePatternTuple fuel allow P <> Unreachable.
Proof.
  apply parsePatternTupleWith_reachable. apply parsePatternAtom_reachable.
Qed.

Lemma skipUntil_ret_reachable {A} k (a : A) P :
  (skipUntil k ;;; ret a) P <> Unreachable.
Proof. done. Qed.

Lemma parseSelectorArgumentClose_reachable st a b init P :
  parseSelectorArgumentClose st a b init P <> Unreachable.
Proof.
  unfold parseSelectorArgumentClose, bind, getTok, Token_isNot.
  destruct (Token_is (Tok P) comma); [done|].
  destruct (Token_is (Tok P) r_paren) eqn:Hrp; cbn; [|done].
  unfold consumeTokenK, bind, getTok. now rewrite Hrp.
Qed.

Lemma parseSelectorArgumentInit_reachable st a b P :
  parseSelectorArgumentInit st a b P <> Unreachable.
Proof.
  unfold parseSelectorArgumentInit, bind, consumeIf, bind, getTok, ext.
  destruct (Token_is (Tok P) equal); cbn.
  - destruct (parseExpr _ _) as [[e|] P2]; [|done].
    apply parseSelectorArgumentClose_reachable.
  - apply parseSelectorArgumentClose_reachable.
Qed.

Lemma parseSelectorArgumentBody_reachable fuel argPattern st P :
  parseSelectorArgumentBody fuel argPattern st P <> Unreachable.
Proof.
  unfold parseSelectorArgumentBody, bind at 1, getTok at 1.
  destruct (Token_isNot (Tok P) l_paren); [done|].
  unfold bind at 1, consumeToken. unfold bind at 1, getTok at 1.
  destruct (Token_is (Tok (advance P)) r_paren); [done|].
  apply bind_reachable; [apply parsePatternAtom_reachable|].
  intros [bodyPattern|] P1 _; [|done].
  unfold bind, consumeIf, bind, getTok, ext.
  destruct (Token_is (Tok P1) colon); cbn.
  - destruct (parseTypeAnnotation _) as [[ty|] P2]; [|done].
    apply parseSelectorArgumentInit_reachable.
  - apply parseSelectorArgumentInit_reachable.
Qed.

Lemma parseSelectorArgument_reachable fuel st P :
  Token_is (Tok P) identifier = true ->
  parseSelectorArgument fuel st P <> Unreachable.
Proof.
  intros Hid. unfold parseSelectorArgument.
  destruct (parsePatternIdentifier_Some P Hid) as (p & Hp).
  rewrite (bind_Done _ _ _ _ _ Hp).
  apply bind_reachable.
  - unfold checkSelectorName. destruct p as [|decl| | |]; try done.
    now destruct (_ !! _).
  - intros names P1 _. apply parseSelectorArgumentBody_reachable.
Qed.

Lemma parseSelectorArguments_reachable fuel :
  forall st P, parseSelectorArguments fuel st P <> Unreachable.
Proof.
  induction fuel as [|fuel IH]; intros st P; cbn; unfold bind, getTok;
    destruct (Token_is (Tok P) identifier) eqn:Hid;
    try (now destruct (Token_is (Tok P) l_paren)).
  pose proof (parseSelectorArgument_reachable fuel st P Hid) as H1.
  destruct (parseSelectorArgument fuel st P) as [[[|] st1] P1| |];
    first [done|apply IH].
Qed.

Lemma parseCurriedFunctionArguments_reachable fuel :
  forall argP bodyP P,
    parseCurriedFunctionArguments fuel argP bodyP P <> Unreachable.
Proof.
  induction fuel as [|fuel IH]; intros argP bodyP P; cbn; unfold bind, getTok;
    destruct (Token_is (Tok P) l_paren) eqn:Hlp; try done.
  pose proof (parsePatternTuple_reachable fuel true P Hlp) as H1.
  destruct (parsePatternTuple fuel true P) as [[pat|] P1| |];
    first [done|apply IH].
Qed.

Lemma parseFunctionArguments_reachable fuel argP bodyP P :
  Token_is (Tok P) l_paren = true ->
  parseFunctionArguments fuel argP bodyP P <> Unreachable.
Proof.
  intros Hlp. unfold parseFunctionArguments.
  apply bind_reachable; [now apply parsePatternTuple_reachable|].
  intros [firstPattern|] P1 Hfirst; [|done].
  apply parsePatternTuple_shape in Hfirst.
  unfold bind, getTok. destruct (Token_is (Tok P1) identifier).
  - unfold parseSelectorFunctionArguments. apply bind_reachable.
    + unfold convertFirstPattern.
      destruct firstPattern as [| | |lp sub rp|lp fields rp]; try done.
      now destruct fields as [|e [|e' fields]].
    + intros [[[lp a] b]|] P2 _; [|done].
      apply bind_reachable; [apply parseSelectorArguments_reachable|].
      now intros [[|] st] P3 _.
  - apply parseCurriedFunctionArguments_reachable.
Qed.

Lemma parseFunctionSignature_reachable fuel argP bodyP retType P :
  Token_is (Tok P) l_paren = true ->
  parseFunctionSignature fuel argP bodyP retType P <> Unreachable.
Proof.
  intros Hlp. unfold parseFunctionSignature.
  apply bind_reachable; [now apply parseFunctionArguments_reachable|].
  intros [[[|] a] b] P1 _; [done|].
  unfold bind, consumeIf, bind, getTok, ext.
  destruct (Token_is (Tok P1) arrow); cbn; [|done].
  now destruct (parseType _) as [[ty|] P2].
Qed.

End Assertions.

Section Diagnostics.
Context {sema : Sema} {collab : Collaborators}.

(** The external parsers keep what the sink holds and report their own
    failures. *)
Hypothesis parseExpr_logs :
  forall d P, logged (fun r => r = None) P (parseExpr d P).1 (parseExpr d P).2.
Hypothesis parseTypeAnnotation_logs :
  forall P, logged (fun r => r = None) P
              (parseTypeAnnotation P).1 (parseTypeAnnotation P).2.
Hypothesis parseType_logs :
  forall P, logged (fun r => r = None) P (parseType P).1 (parseType P).2.

Lemma logged_refl {A} (a : A) P : logged (fun _ => False) P a P.
Proof. split; [done|tauto]. Qed.

Lemma logged_after {A} (f : A -> Prop) P P1 a P' :
  Diags P `prefix_of` Diags P1 -> logged f P1 a P' -> logged f P a P'.
Proof.
  intros H1 [H2 H3]. split; [now transitivity (Diags P1)|].
  intros Hf. apply prefix_length in H1. specialize (H3 Hf). lia.
Qed.

Lemma logged_strict {A} (f g : A -> Prop) P P1 a P' :
  logged (fun _ => True) P a P1 -> logged g P1 a P' -> logged f P a P'.
Proof.
  intros [H1 H2] [H3 _]. split; [now transitivity (Diags P1)|].
  intros _. apply prefix_length in H3. specialize (H2 I). lia.
Qed.

Lemma logged_weaken {A} (f g : A -> Prop) P a P' :
  (g a -> f a) -> logged f P a P' -> logged g P a P'.
Proof. intros Hfg [H1 H2]. split; auto. Qed.

Lemma logged_emit {A} (f : A -> Prop) d P a : logged f P a (emit d P).
Proof.
  split; cbn; [now apply prefix_app_r|]. intros _. rewrite length_app. cbn. lia.
Qed.

Lemma logged_change {A B} (f : A -> Prop) (g : B -> Prop) P a b P' :
  (g b -> f a) -> logged f P a P' -> logged g P b P'.
Proof. intros Hfg [H1 H2]. split; auto. Qed.

Lemma parsePatternIdentifier_logs P :
  ensures parsePatternIdentifier P (fun _ P' => Diags P' = Diags P).
Proof.
  intros r P'.
  unfold parsePatternIdentifier, bind, getTok, consumeIf, bind, getTok.
  destruct (Token_is (Tok P) identifier); cbn;
    [destruct (bool_decide _)|]; now intros [= _ <-].
Qed.

Lemma parsePatternWith_logs atom P :
  ensures atom P (logged isNone P) ->
  ensures (parsePatternWith atom) P (logged isNone P).
Proof.
  intros Hatom. unfold parsePatternWith. apply ensures_bind.
  apply (ensures_weaken _ _ _ _ Hatom). intros [pat|] P1 H1.
  2:{ now apply ensures_ret. }
  destruct H1 as [H1 _]. intros r P'.
  unfold bind, consumeIf, bind, getTok, ext.
  destruct (Token_is (Tok P1) colon); cbn.
  - pose proof (parseTypeAnnotation_logs (advance P1)) as Hty.
    destruct (parseTypeAnnotation (advance P1)) as [[ty|] P2]; cbn in Hty;
      intros [= <- <-]; apply (logged_after _ _ (advance P1)); try done;
      revert Hty; apply logged_change; unfold isNone; congruence.
  - intros [= <- <-]. split; [done|]. discriminate.
Qed.

Lemma parseOptionalInitializer_logs allow P :
  ensures (parseOptionalInitializer allow) P (logged (fun _ => False) P).
Proof.
  intros r P'. unfold parseOptionalInitializer, bind, getTok.
  destruct (Token_is (Tok P) equal); cbn;
    [|intros [= <- <-]; apply logged_refl].
  unfold ext.
  destruct allow; cbn.
  - pose proof (parseExpr_logs expected_initializer_expr (advance P)) as [He _].
    destruct (parseExpr _ (advance P)) as [[e|] P2]; cbn in He;
      intros [= <- <-]; (split; [done|tauto]).
  - pose proof (parseExpr_logs expected_initializer_expr
                  (emit (Diag (getTokLoc (Tok P)) non_func_decl_pattern_init)
                     (advance P))) as [He _].
    destruct (parseExpr _ _) as [[e|] P2]; cbn in He;
      intros [= <- <-];
      (split; [|tauto]); (etransitivity; [|exact He]); now apply prefix_app_r.
Qed.

Lemma parseOptionalEllipsis_logs pat init P :
  ensures (parseOptionalEllipsis pat init) P
    (fun r P' => is_Some r /\ Diags P `prefix_of` Diags P').
Proof.
  intros r P'. destruct (Token_is (Tok P) ellipsis) eqn:E.
  - destruct init as [e|].
    + rewrite parseOptionalEllipsis_init by done. intros [= <- <-].
      split; [eauto|now apply prefix_app_r].
    + destruct pat as [loc|decl|sub tl|lp sub rp|lp fs rp].
      3: { rewrite parseOptionalEllipsis_typed by done. intros [= <- <-].
           split; [eauto|done]. }
      all: rewrite parseOptionalEllipsis_untyped by done; intros [= <- <-];
        (split; [eauto|now apply prefix_app_r]).
  - rewrite parseOptionalEllipsis_absent by done. intros [= <- <-].
    split; [eauto|done].
Qed.

Lemma parsePatternTupleElementWith_logs atom allow P :
  ensures atom P (logged isNone P) ->
  ensures (parsePatternTupleElementWith atom allow) P (logged isNone P).
Proof.
  intros Hatom. unfold parsePatternTupleElementWith. apply ensures_bind.
  apply (ensures_weaken _ _ _ _ (parsePatternWith_logs _ _ Hatom)).
  intros [pat|] P1 H1;
    [destruct H1 as [H1 _]
    |apply ensures_ret; revert H1; now apply logged_change].
  apply ensures_bind.
  apply (ensures_weaken _ _ _ _ (parseOptionalInitializer_logs allow P1)).
  intros init P2 [H2 _].
  apply (ensures_weaken _ _ _ _ (parseOptionalEllipsis_logs pat init P2)).
  intros r P3 [[elt ->] H3]. split; [|discriminate].
  transitivity (Diags P1); [done|]. now transitivity (Diags P2).
Qed.

Lemma addTupleElement_logs atom allow elts P :
  ensures atom P (logged isNone P) ->
  ensures (addTupleElement atom allow elts) P (logged failedFlag P).
Proof.
  intros Hatom. unfold addTupleElement. apply ensures_bind.
  apply (ensures_weaken _ _ _ _
           (parsePatternTupleElementWith_logs _ allow _ Hatom)).
  intros [e|] P1 [H1 H2].
  - intros r P'.
    destruct (last elts) as [b|]; [destruct (isVararg b)|]; cbn;
      intros [= <- <-]; (split; [|discriminate]); try done.
    now apply prefix_app_r.
  - apply ensures_ret. split; [done|]. intros _. now apply H2.
Qed.

Lemma parseList_loop_logs {St} RightK SeparatorK ErrorDiag
    (cb : St -> M (bool * St)) :
  (forall s P, ensures (cb s) P (logged failedFlag P)) ->
  forall fuel s P,
    ensures (parseList_loop RightK SeparatorK ErrorDiag cb fuel s) P
      (logged (fun r => r.1.1 = true) P).
Proof.
  intros Hcb. induction fuel as [|fuel IH]; intros s P; [now intros r P'|].
  cbn. apply ensures_bind. apply (ensures_weaken _ _ _ _ (Hcb s P)).
  intros [[|] s1] P1 [H1 H2].
  - apply ensures_ret. split; [done|]. intros _. now apply H2.
  - intros r P'. unfold bind, getTok.
    destruct (Token_is (Tok P1) SeparatorK); cbn.
    + intros H. apply IH in H. now apply (logged_after _ _ (advance P1)).
    + destruct (Token_is (Tok P1) RightK); cbn; intros [= <- <-].
      * split; [done|discriminate].
      * apply (logged_after _ _ P1); [done|]. apply logged_emit.
Qed.

Lemma parsePatternTupleWith_logs atom fuel allow P :
  (forall Q, ensures atom Q (logged isNone Q)) ->
  ensures (parsePatternTupleWith atom fuel allow) P (logged isNone P).
Proof.
  intros Hatom. unfold parsePatternTupleWith. apply ensures_bind.
  intros LPLoc P0 Hlp. apply consumeTokenK_inv in Hlp as (_ & _ & ->).
  apply ensures_bind.
  assert (Hbody : ensures (parseTupleElementsWith atom fuel allow) (advance P)
                    (logged (fun r => r.1.1 = true) (advance P))).
  { unfold parseTupleElementsWith, parseList. intros r P'.
    unfold bind, getTok.
    destruct (Token_is (Tok (advance P)) r_paren); cbn.
    - intros [= <- <-]. split; [done|discriminate].
    - apply parseList_loop_logs. intros elts Q.
      apply addTupleElement_logs, Hatom. }
  apply (ensures_weaken _ _ _ _ Hbody).
  intros [[[|] elts] RPLoc] P1 [H1 H2]; apply ensures_ret.
  - split; [done|]. intros _. now apply H2.
  - split; [done|discriminate].
Qed.

Lemma parsePatternIdentifier_logged P :
  Token_is (Tok P) identifier = true ->
  ensures parsePatternIdentifier P (logged isNone P).
Proof.
  intros Hid r P'. destruct (parsePatternIdentifier_Some P Hid) as (p & ->).
  intros [= <- <-]. split; [done|discriminate].
Qed.

Lemma parsePatternAtom_logs fuel :
  forall P, ensures (parsePatternAtom fuel) P (logged isNone P).
Proof.
  induction fuel as [|fuel IH]; intros P; rewrite parsePatternAtom_unfold;
    apply ensures_bind; intros t P0 [= <- <-];
    destruct (getKind (Tok P)) eqn:Hk;
    try (apply parsePatternIdentifier_logged; now apply getKind_Token_is);
    try (intros r P'; cbn; intros [= <- <-]; split; cbn;
         [now apply prefix_app_r|intros _; rewrite length_app; cbn; lia]).
  - now intros r P'.
  - apply parsePatternTupleWith_logs, IH.
Qed.

Lemma parsePatternTuple_logs fuel allow P :
  ensures (parsePatternTuple fuel allow) P (logged isNone P).
Proof. apply parsePatternTupleWith_logs, parsePatternAtom_logs. Qed.

Ltac emitted :=
  split; cbn; [now apply prefix_app_r|intros _; rewrite length_app; cbn; lia].

Lemma logged_strict_then {A B} (f : B -> Prop) P P1 (a : A) (b : B) P' :
  logged (fun _ => True) P a P1 -> Diags P1 `prefix_of` Diags P' ->
  logged f P b P'.
Proof.
  intros [H1 H2] H3. split; [now transitivity (Diags P1)|].
  intros _. apply prefix_length in H3. specialize (H2 I). lia.
Qed.

Lemma parseSelectorArgumentClose_logs st a b init P :
  ensures (parseSelectorArgumentClose st a b init) P (logged failedFlag P).
Proof.
  intros r P'. unfold parseSelectorArgumentClose, bind, getTok, Token_isNot.
  destruct (Token_is (Tok P) comma); cbn.
  { intros [= <- <-]. emitted. }
  destruct (Token_is (Tok P) r_paren) eqn:Hrp; cbn.
  - unfold consumeTokenK, bind, getTok. rewrite Hrp. cbn.
    intros [= <- <-]. split; [done|discriminate].
  - intros [= <- <-]. apply logged_emit.
Qed.

Lemma parseSelectorArgumentInit_logs st a b P :
  ensures (parseSelectorArgumentInit st a b) P (logged failedFlag P).
Proof.
  unfold parseSelectorArgumentInit. apply ensures_bind.
  intros c P1 Hc.
  assert (HP1 : Diags P1 = Diags P).
  { revert Hc. unfold consumeIf, bind, getTok.
    destruct (Token_is (Tok P) equal); now intros [= _ <-]. }
  destruct c.
  - apply ensures_bind. intros initR P2. unfold ext.
    pose proof (parseExpr_logs expected_initializer_expr P1) as He.
    destruct (parseExpr expected_initializer_expr P1) as [[e|] P3];
      cbn in He; intros [= <- <-].
    + destruct He as [He _]. rewrite HP1 in He.
      apply (ensures_weaken _ _ _ _ (parseSelectorArgumentClose_logs _ _ _ _ _)).
      intros r P'. now apply logged_after.
    + intros r P'. cbn. intros [= <- <-].
      destruct He as [He1 He2]. specialize (He2 eq_refl).
      rewrite HP1 in He1, He2. now split.
  - apply (ensures_weaken _ _ _ _ (parseSelectorArgumentClose_logs _ _ _ _ _)).
    intros r P'. apply logged_after. now rewrite HP1.
Qed.

Lemma parseSelectorArgumentBody_logs fuel argPattern st P :
  ensures (parseSelectorArgumentBody fuel argPattern st) P
    (logged failedFlag P).
Proof.
  unfold parseSelectorArgumentBody. apply ensures_bind.
  intros t P0 [= <- <-].
  destruct (Token_isNot (Tok P) l_paren).
  { intros r P'. cbn. intros [= <- <-]. apply logged_emit. }
  apply ensures_bind. intros loc P0 [= _ <-].
  apply ensures_bind. intros t P0 [= <- <-].
  destruct (Token_is (Tok (advance P)) r_paren).
  { intros r P'. cbn. intros [= <- <-].
    apply (logged_after _ _ (advance P)); [done|apply logged_emit]. }
  apply ensures_bind.
  apply (ensures_weaken _ _ _ _ (parsePatternAtom_logs fuel (advance P))).
  intros [bodyPattern|] P1 H1.
  2:{ intros r P'. cbn. intros [= <- <-].
      destruct H1 as [H1 H2]. specialize (H2 eq_refl). now split. }
  destruct H1 as [H1 _]. cbn in H1.
  apply ensures_bind. intros c P2 Hc.
  assert (HP2 : Diags P2 = Diags P1).
  { revert Hc. unfold consumeIf, bind, getTok.
    destruct (Token_is (Tok P1) colon); now intros [= _ <-]. }
  destruct c.
  - apply ensures_bind. intros type P3. unfold ext.
    pose proof (parseTypeAnnotation_logs P2) as Hty.
    destruct (parseTypeAnnotation P2) as [[ty|] P4]; cbn in Hty;
      intros [= <- <-].
    + destruct Hty as [Hty _]. rewrite HP2 in Hty.
      apply (ensures_weaken _ _ _ _ (parseSelectorArgumentInit_logs _ _ _ _)).
      intros r P'. apply logged_after. now transitivity (Diags P1).
    + intros r P'. cbn. intros [= <- <-].
      destruct Hty as [Hty1 Hty2]. specialize (Hty2 eq_refl).
      rewrite HP2 in Hty1, Hty2. apply prefix_length in H1 as Hlen.
      cbn in Hlen. split; cbn; [now transitivity (Diags P1)|intros _; lia].
  - apply (ensures_weaken _ _ _ _ (parseSelectorArgumentInit_logs _ _ _ _)).
    intros r P'. apply logged_after. now rewrite HP2.
Qed.

Lemma checkSelectorName_logs argPattern names P :
  ensures (checkSelectorName argPattern names) P
    (fun _ P' => Diags P `prefix_of` Diags P').
Proof.
  intros r P'. unfold checkSelectorName.
  destruct argPattern as [|decl| | |]; try (now intros [= _ <-]).
  destruct (names !! _); intros [= _ <-]; [|done].
  now apply prefix_app_r.
Qed.

Lemma parseSelectorArgument_logs fuel st P :
  ensures (parseSelectorArgument fuel st) P (logged failedFlag P).
Proof.
  unfold parseSelectorArgument. apply ensures_bind.
  apply (ensures_weaken _ _ _ _ (parsePatternIdentifier_logs P)).
  intros [argPattern|] P1 HP1; [|now intros r P'].
  apply ensures_bind.
  apply (ensures_weaken _ _ _ _ (checkSelectorName_logs _ _ P1)).
  intros names P2 HP2.
  apply (ensures_weaken _ _ _ _ (parseSelectorArgumentBody_logs _ _ _ P2)).
  intros r P'. apply logged_after. now rewrite <- HP1.
Qed.

Lemma parseSelectorArguments_logs fuel :
  forall st P,
    ensures (parseSelectorArguments fuel st) P (logged failedFlag P).
Proof.
  induction fuel as [|fuel IH]; intros st P; cbn; apply ensures_bind;
    intros t P0 [= <- <-];
    destruct (Token_is (Tok P) identifier);
    try (destruct (Token_is (Tok P) l_paren); intros r P'; cbn;
         intros [= <- <-]; [apply logged_emit|split; [done|discriminate]]).
  - now intros r P'.
  - apply ensures_bind.
    apply (ensures_weaken _ _ _ _ (parseSelectorArgument_logs fuel st P)).
    intros [[|] st1] P1 H1.
    + apply ensures_ret. revert H1. now apply logged_change.
    + destruct H1 as [H1 _].
      apply (ensures_weaken _ _ _ _ (IH st1 P1)).
      intros r P'. now apply logged_after.
Qed.

Lemma parseSelectorFunctionArguments_logs fuel argP bodyP firstPattern P :
  ensures (parseSelectorFunctionArguments fuel argP bodyP firstPattern) P
    (logged failedArgs P).
Proof.
  unfold parseSelectorFunctionArguments. apply ensures_bind.
  intros first P1 Hconv.
  destruct first as [[[lp a] b]|].
  - apply convertFirstPattern_parallel in Hconv as [_ ->].
    apply ensures_bind.
    apply (ensures_weaken _ _ _ _ (parseSelectorArguments_logs fuel _ P)).
    intros [[|] st] P2 H2; apply ensures_ret; revert H2;
      now apply logged_change.
  - apply ensures_ret.
    revert Hconv. unfold convertFirstPattern.
    destruct firstPattern as [| | |lp sub rp|lp fields rp]; try discriminate.
    destruct fields as [|e [|e' fields]]; try discriminate;
      cbn; intros [= <-]; apply logged_emit.
Qed.

Lemma parseCurriedFunctionArguments_logs fuel :
  forall argP bodyP P,
    ensures (parseCurriedFunctionArguments fuel argP bodyP) P
      (logged failedArgs P).
Proof.
  induction fuel as [|fuel IH]; intros argP bodyP P; cbn; apply ensures_bind;
    intros t P0 [= <- <-]; destruct (Token_is (Tok P) l_paren);
    try (apply ensures_ret; split; [done|discriminate]).
  - now intros r P'.
  - apply ensures_bind.
    apply (ensures_weaken _ _ _ _ (parsePatternTuple_logs fuel true P)).
    intros [pat|] P1 H1.
    + destruct H1 as [H1 _]. apply (ensures_weaken _ _ _ _ (IH _ _ P1)).
      intros r P'. now apply logged_after.
    + apply ensures_ret. revert H1. now apply logged_change.
Qed.

Lemma parseFunctionArguments_logs fuel argP bodyP P :
  ensures (parseFunctionArguments fuel argP bodyP) P (logged failedArgs P).
Proof.
  unfold parseFunctionArguments. apply ensures_bind.
  apply (ensures_weaken _ _ _ _ (parsePatternTuple_logs fuel true P)).
  intros [firstPattern|] P1 H1.
  2:{ apply ensures_ret. revert H1. now apply logged_change. }
  destruct H1 as [H1 _]. apply ensures_bind. intros t P0 [= <- <-].
  destruct (Token_is (Tok P1) identifier).
  - apply (ensures_weaken _ _ _ _
             (parseSelectorFunctionArguments_logs _ _ _ _ P1)).
    intros r P'. now apply logged_after.
  - apply (ensures_weaken _ _ _ _
             (parseCurriedFunctionArguments_logs _ _ _ P1)).
    intros r P'. now apply logged_after.
Qed.

Lemma parseFunctionSignature_logs fuel argP bodyP retType P :
  ensures (parseFunctionSignature fuel argP bodyP retType) P
    (logged failedSignature P).
Proof.
  unfold parseFunctionSignature. apply ensures_bind.
  apply (ensures_weaken _ _ _ _ (parseFunctionArguments_logs fuel _ _ P)).
  intros [[[|] a] b] P1 H1.
  { apply ensures_ret. revert H1. now apply logged_change. }
  destruct H1 as [H1 _]. apply ensures_bind. intros c P2 Hc.
  assert (HP2 : Diags P2 = Diags P1).
  { revert Hc. unfold consumeIf, bind, getTok.
    destruct (Token_is (Tok P1) arrow); now intros [= _ <-]. }
  destruct c.
  - apply ensures_bind. intros type P3. unfold ext.
    pose proof (parseType_logs P2) as Hty.
    destruct (parseType P2) as [[ty|] P4]; cbn in Hty; intros [= <- <-];
      apply ensures_ret; apply (logged_after _ _ P2);
      try (now rewrite HP2); revert Hty; now apply logged_change.
  - apply ensures_ret. split; [now rewrite HP2|discriminate].
Qed.

End Diagnostics.

Section Progress.
Context {sema : Sema} {collab : Collaborators}.

Hypothesis parseExpr_forward :
  forall d P, remaining (parseExpr d P).2 <= remaining P.
Hypothesis parseTypeAnnotation_forward :
  forall P, remaining (parseTypeAnnotation P).2 <= remaining P.

Lemma extends_returns {A} (c c' : M A) P Q :
  extends c c' -> returns c' P Q -> ensures c P Q.
Proof.
  intros Hext Hret a P' H. apply Hext in H. unfold returns in Hret.
  now rewrite H in Hret.
Qed.

Lemma parsePatternAtom_progress fuel P :
  ensures (parsePatternAtom fuel) P (forward is_Some P).
Proof.
  apply (extends_returns _ (parsePatternAtom (fuel + S (remaining P)))).
  - apply parsePatternAtom_fuel. lia.
  - apply parsePatternAtom_returns; [done..|lia].
Qed.

Lemma parsePattern_progress fuel P :
  ensures (parsePattern fuel) P (forward is_Some P).
Proof.
  apply (extends_returns _ (parsePattern (fuel + S (remaining P)))).
  - unfold parsePattern, parsePatternWith.
    apply extends_bind; [|intros r; apply extends_refl].
    apply parsePatternAtom_fuel. lia.
  - apply parsePatternWith_forward; [done|].
    apply parsePatternAtom_returns; [done..|lia].
Qed.

Lemma parsePatternTupleElement_progress fuel allow P :
  ensures (parsePatternTupleElement fuel allow) P (forward is_Some P).
Proof.
  apply (extends_returns _
           (parsePatternTupleElement (fuel + S (remaining P)) allow)).
  - apply parsePatternTupleElement_fuel. lia.
  - apply parsePatternTupleElement_returns; [done..|lia].
Qed.

Lemma parsePatternTuple_progress fuel allow P :
  ensures (parsePatternTuple fuel allow) P (forward is_Some P).
Proof.
  apply (extends_returns _
           (parsePatternTuple (fuel + S (remaining P)) allow)).
  - apply parsePatternTuple_fuel. lia.
  - apply parsePatternTuple_returns; [done..|lia].
Qed.

Lemma parseFunctionArguments_progress fuel argP bodyP P :
  ensures (parseFunctionArguments fuel argP bodyP) P (within (remaining P)).
Proof.
  apply (extends_returns _
           (parseFunctionArguments (fuel + S (remaining P)) argP bodyP)).
  - apply parseFunctionArguments_fuel. lia.
  - apply parseFunctionArguments_returns; [done..|lia].
Qed.

Lemma parseFunctionSignature_returns fuel argP bodyP retType P :
  remaining P < fuel ->
  parseFunctionSignature fuel argP bodyP retType P <> OutOfFuel.
Proof.
  intros Hfuel. unfold parseFunctionSignature, bind at 1.
  pose proof (parseFunctionArguments_returns parseExpr_forward
                parseTypeAnnotation_forward fuel argP bodyP P Hfuel) as H.
  unfold returns in H.
  destruct (parseFunctionArguments fuel argP bodyP P)
    as [[[[|] a] b] P1| |]; try done.
  unfold bind, consumeIf, bind, getTok, ext.
  destruct (Token_is (Tok P1) arrow); cbn; [|done].
  now destruct (parseType _) as [[ty|] P2].
Qed.

End Progress.

Section Lookahead.
Context {sema : Sema} {collab : Collaborators}.

Lemma parsePatternAtom_start fuel P p P' :
  parsePatternAtom fuel P = Done (Some p) P' ->
  isStartOfPattern (Tok P) = true.
Proof.
  rewrite parsePatternAtom_unfold. unfold bind, getTok, isStartOfPattern.
  destruct (getKind (Tok P)) eqn:Hk; try discriminate; intros _;
    rewrite (getKind_Token_is _ _ Hk); [done|].
  now rewrite orb_true_r.
Qed.

Lemma parsePatternWith_inv atom P pat P' :
  parsePatternWith atom P = Done (Some pat) P' ->
  exists p P1, atom P = Done (Some p) P1 /\
    (pat = p \/ exists type, pat = TypedPattern p type).
Proof.
  unfold parsePatternWith. intros H.
  apply bind_inv in H as ([p|] & P1 & Hatom & H); [|discriminate].
  exists p, P1. split; [done|]. revert H.
  unfold bind, consumeIf, bind, getTok, ext.
  destruct (Token_is (Tok P1) colon); cbn.
  - destruct (parseTypeAnnotation _) as [[ty|] P2]; [|discriminate].
    intros [= <- _]. eauto.
  - intros [= <- _]. auto.
Qed.

Lemma parsePattern_start fuel P pat P' :
  parsePattern fuel P = Done (Some pat) P' ->
  isStartOfPattern (Tok P) = true.
Proof.
  intros H. apply parsePatternWith_inv in H as (p & P1 & Hatom & _).
  now apply parsePatternAtom_start in Hatom.
Qed.

Lemma parsePattern_boundName fuel P pat P' :
  Token_is (Tok P) identifier = true ->
  parsePattern fuel P = Done (Some pat) P' ->
  getBoundName pat =
    if bool_decide (getText (Tok P) = "_") then "" else getText (Tok P).
Proof.
  intros Hid H. apply parsePatternWith_inv in H as (p & P1 & Hatom & Hpat).
  assert (Hp : getBoundName p =
            if bool_decide (getText (Tok P) = "_") then ""
            else getText (Tok P)).
  { revert Hatom. rewrite parsePatternAtom_unfold. unfold bind, getTok.
    apply bool_decide_eq_true_1 in Hid as ->.
    unfold parsePatternIdentifier, bind, getTok, consumeIf, bind, getTok.
    destruct (Token_is (Tok P) identifier); cbn; [|discriminate].
    destruct (bool_decide _); now intros [= <- _]. }
  now destruct Hpat as [->|[type ->]].
Qed.

(** *** Vararg fields *)

Lemma parsePatternTupleElement_wfVararg fuel allow P elt P' :
  parsePatternTupleElement fuel allow P = Done (Some elt) P' -> wfVararg elt.
Proof.
  intros H T HT. apply parsePatternTupleElement_inv in H
    as (pat & P1 & init & P2 & _ & _ & Hell).
  apply parseOptionalEllipsis_inv in Hell
    as [Hinit [[Hnone _]|(sub & tl & _ & -> & _ & Hty & Hp)]]; [congruence|].
  split; [done|]. exists sub, (getSourceRange tl). congruence.
Qed.

Lemma addTupleElement_wfVararg fuel allow elts P r elts' P' :
  Forall wfVararg elts ->
  addTupleElement (parsePatternAtom fuel) allow elts P = Done (r, elts') P' ->
  Forall wfVararg elts'.
Proof.
  intros Hall. unfold addTupleElement.
  fold (parsePatternTupleElement fuel allow). intros H.
  apply bind_inv in H as ([e|] & P1 & Helt & H).
  2:{ now injection H as _ <- _. }
  apply parsePatternTupleElement_wfVararg in Helt.
  apply bind_inv in H as (elts1 & P2 & H1 & H). injection H as _ <- _.
  apply Forall_app. split; [|now constructor].
  destruct (last elts) as [b|] eqn:Hlast; [destruct (isVararg b)|];
    cbn in H1; injection H1 as <- _; try done.
  unfold revertBack. rewrite Hlast.
  apply last_Some in Hlast as [front ->]. rewrite removelast_last.
  apply Forall_app in Hall as [Hfront _].
  apply Forall_app. split; [done|]. constructor; [|done].
  intros T. discriminate.
Qed.

Lemma parsePatternTuple_wfVararg fuel allow P LPLoc elts RPLoc P' :
  parsePatternTuple fuel allow P = Done (Some (TuplePattern LPLoc elts RPLoc)) P'
  -> Forall wfVararg elts.
Proof.
  intros H. apply parsePatternTuple_inv in H as (elts' & RPLoc' & _ & Helts & Heq).
  assert (Hall : Forall wfVararg elts').
  { revert Helts. unfold parseTupleElements, parseTupleElementsWith.
    apply (parseList_invariant (Forall wfVararg)).
    - intros s Q r s' Q'. apply addTupleElement_wfVararg.
    - constructor. }
  destruct (tupleOrParen_cases (getTokLoc (Tok P)) elts' RPLoc')
    as [(e0 & _ & _ & _ & _ & Hp)|[_ Ht]]; [congruence|].
  rewrite Ht in Heq. now injection Heq as _ -> _.
Qed.

End Lookahead.

Section Extras.
Context {sema : Sema} {collab : Collaborators}.

(** X1: whatever parseCurriedFunctionArguments returns, success or failure,
    it has pushed the same clauses, in the same order, on the argument and
    the body list, each clause a ParenPattern or a TuplePattern; after a
    success the current token is not '('. *)
Theorem curried_clauses_are_shared fuel argP bodyP P r argP' bodyP' P' :
  parseCurriedFunctionArguments fuel argP bodyP P
    = Done (r, argP', bodyP') P' ->
  exists clauses,
    argP' = argP ++ clauses /\ bodyP' = bodyP ++ clauses /\
    Forall isParenOrTuple clauses /\
    (r = false -> Token_is (Tok P') l_paren = false).
Proof. apply parseCurriedFunctionArguments_same. Qed.

(** X2: parseFunctionArguments only appends to its two output lists, the
    same number of patterns to each, all of them ParenPatterns or
    TuplePatterns; after a success at least one was appended and the
    current token is not '('. *)
Theorem function_arguments_only_append fuel argP bodyP P r argP' bodyP' P' :
  parseFunctionArguments fuel argP bodyP P = Done (r, argP', bodyP') P' ->
  exists newArg newBody,
    argP' = argP ++ newArg /\ bodyP' = bodyP ++ newBody /\
    length newArg = length newBody /\
    Forall isParenOrTuple newArg /\ Forall isParenOrTuple newBody /\
    (r = false -> newArg <> [] /\ Token_is (Tok P') l_paren = false).
Proof. apply parseFunctionArguments_appends. Qed.

(** X3: a successful parseSelectorFunctionArguments appends one
    TuplePattern to each list, with the same parenthesis locations and the
    same number of fields; the fields at one position carry the same
    initializer, the same vararg base type and the same type annotation;
    no field after the first is vararg; and the current token is then
    neither an identifier nor '('. *)
Theorem selector_trees_are_parallel fuel argP bodyP firstPattern P
    argP' bodyP' P' :
  parseSelectorFunctionArguments fuel argP bodyP firstPattern P
    = Done (false, argP', bodyP') P' ->
  exists lp a b argRest bodyRest rp',
    argP' = argP ++ [TuplePattern lp (a :: argRest) rp'] /\
    bodyP' = bodyP ++ [TuplePattern lp (b :: bodyRest) rp'] /\
    Forall2 parallel (a :: argRest) (b :: bodyRest) /\
    Forall (fun e => getVarargBaseType e = None) argRest /\
    Token_is (Tok P') identifier = false /\
    Token_is (Tok P') l_paren = false.
Proof. apply parseSelectorFunctionArguments_parallel. Qed.

(** X4: over the loop of selector clauses the selector-name table only
    grows: a name that is bound keeps its binding, whether the loop succeeds
    or fails, and every name stays bound to a declaration of that name. *)
Theorem selector_table_only_grows fuel st P r st' P' :
  parseSelectorArguments fuel st P = Done (r, st') P' ->
  selectorNames st ⊆ selectorNames st' /\
  (wellKeyed (selectorNames st) -> wellKeyed (selectorNames st')).
Proof. apply parseSelectorArguments_table. Qed.

(** X5: started on '(', parseFunctionSignature never runs into an
    assertion of a consumeToken(kind), the assertion of line 58 or the
    llvm_unreachable of line 175, whatever the tokens and the external
    parsers. *)
Theorem signature_hits_no_assertion fuel argP bodyP retType P :
  Token_is (Tok P) l_paren = true ->
  parseFunctionSignature fuel argP bodyP retType P <> Unreachable.
Proof. apply parseFunctionSignature_reachable. Qed.

(** X6: parsePattern returns a pattern only when isStartOfPattern holds of
    the current token; when it does not hold, parsePattern returns null for
    every fuel. *)
Theorem pattern_parse_starts_at_start_token fuel P :
  (forall pat P', parsePattern fuel P = Done (Some pat) P' ->
                  isStartOfPattern (Tok P) = true) /\
  (isStartOfPattern (Tok P) = false ->
   exists P', parsePattern fuel P = Done None P').
Proof.
  split; [intros pat P'; apply parsePattern_start|].
  unfold isStartOfPattern. intros Hstart.
  apply orb_false_iff in Hstart as [Hid Hlp].
  unfold parsePattern, parsePatternWith, bind.
  rewrite parsePatternAtom_unfold. unfold bind, getTok.
  destruct (getKind (Tok P)) eqn:Hk; cbn; eauto;
    rewrite (getKind_Token_is _ _ Hk) in *; discriminate.
Qed.

(** X7: a pattern parsed from a leading identifier has that identifier's
    text as its bound name, and the empty name when the identifier is "_",
    with or without a type annotation. *)
Theorem identifier_pattern_bound_name fuel P pat P' :
  Token_is (Tok P) identifier = true ->
  parsePattern fuel P = Done (Some pat) P' ->
  getBoundName pat =
    if bool_decide (getText (Tok P) = "_") then "" else getText (Tok P).
Proof. apply parsePattern_boundName. Qed.

(** X8: every vararg field of a TuplePattern returned by parsePatternTuple
    has no initializer and a TypedPattern whose type is the array slice of
    the field's vararg base type. *)
Theorem tuple_vararg_fields_are_wellformed fuel allow P LPLoc elts RPLoc P' :
  parsePatternTuple fuel allow P
    = Done (Some (TuplePattern LPLoc elts RPLoc)) P' ->
  Forall wfVararg elts.
Proof. apply parsePatternTuple_wfVararg. Qed.

(** X9: parsePatternTuple returns only ParenPatterns and TuplePatterns,
    parsePatternAtom never returns a TypedPattern, and the pattern under a
    TypedPattern returned by parsePattern is never itself a TypedPattern. *)
Theorem pattern_shapes fuel P :
  (forall allow p P', parsePatternTuple fuel allow P = Done (Some p) P' ->
                      isParenOrTuple p) /\
  (forall p P', parsePatternAtom fuel P = Done (Some p) P' ->
                typeOf p = None) /\
  (forall sub type P', parsePattern fuel P
                         = Done (Some (TypedPattern sub type)) P' ->
                       typeOf sub = None).
Proof.
  split; [|split].
  - intros allow p P'. apply parsePatternTuple_shape.
  - intros p P'. apply parsePatternAtom_untyped.
  - intros sub type P' H.
    apply parsePatternWith_inv in H as (p & P1 & Hatom & Hpat).
    apply parsePatternAtom_untyped in Hatom.
    destruct Hpat as [<-|[ty [= -> _]]]; [discriminate|done].
Qed.

End Extras.

Section ExtrasWithForwardParsers.
Context {sema : Sema} {collab : Collaborators}.

Hypothesis parseExpr_forward :
  forall d P, remaining (parseExpr d P).2 <= remaining P.
Hypothesis parseTypeAnnotation_forward :
  forall P, remaining (parseTypeAnnotation P).2 <= remaining P.

(** X10: when the external parsers never move the cursor backwards, a
    successful parsePattern, parsePatternTupleElement or parsePatternTuple
    has consumed at least one token, and parseFunctionArguments never
    leaves more tokens than it was given. *)
Theorem successful_pattern_parse_consumes fuel P :
  (forall pat P', parsePattern fuel P = Done (Some pat) P' ->
                  remaining P' < remaining P) /\
  (forall allow elt P',
     parsePatternTupleElement fuel allow P = Done (Some elt) P' ->
     remaining P' < remaining P) /\
  (forall allow pat P',
     parsePatternTuple fuel allow P = Done (Some pat) P' ->
     remaining P' < remaining P) /\
  (forall argP bodyP r P',
     parseFunctionArguments fuel argP bodyP P = Done r P' ->
     remaining P' <= remaining P).
Proof.
  repeat split.
  - intros pat P' H.
    apply (parsePattern_progress parseExpr_forward
             parseTypeAnnotation_forward) in H as [_ H]. eauto.
  - intros allow elt P' H.
    apply (parsePatternTupleElement_progress parseExpr_forward
             parseTypeAnnotation_forward) in H as [_ H]. eauto.
  - intros allow pat P' H.
    apply (parsePatternTuple_progress parseExpr_forward
             parseTypeAnnotation_forward) in H as [_ H]. eauto.
  - intros argP bodyP r P' H.
    now apply (parseFunctionArguments_progress parseExpr_forward
                 parseTypeAnnotation_forward) in H.
Qed.

(** X11: when the external parsers never move the cursor backwards,
    parseFunctionSignature started on a '(' token returns a result: with
    fuel above the number of remaining tokens it neither uses the fuel up
    nor stops at an assertion. *)
Theorem signature_parse_terminates fuel argP bodyP retType P :
  Token_is (Tok P) l_paren = true ->
  remaining P < fuel ->
  exists r P', parseFunctionSignature fuel argP bodyP retType P = Done r P'.
Proof.
  intros Hlp Hfuel.
  pose proof (parseFunctionSignature_returns parseExpr_forward
                parseTypeAnnotation_forward fuel argP bodyP retType P Hfuel)
    as Hf.
  pose proof (parseFunctionSignature_reachable fuel argP bodyP retType P Hlp)
    as Hr.
  destruct (parseFunctionSignature fuel argP bodyP retType P) as [r P'| |];
    [by exists r, P'|done|done].
Qed.

End ExtrasWithForwardParsers.

Section ExtrasWithLoggingParsers.
Context {sema : Sema} {collab : Collaborators}.

Hypothesis parseExpr_logs :
  forall d P, logged (fun r => r = None) P (parseExpr d P).1 (parseExpr d P).2.
Hypothesis parseTypeAnnotation_logs :
  forall P, logged (fun r => r = None) P
              (parseTypeAnnotation P).1 (parseTypeAnnotation P).2.
Hypothesis parseType_logs :
  forall P, logged (fun r => r = None) P (parseType P).1 (parseType P).2.

(** X12: when the external parsers keep the diagnostics recorded so far
    and record one for each of their own failures, parseFunctionSignature
    never drops a diagnostic, and every failure it reports comes with at
    least one new diagnostic. *)
Theorem failed_signature_is_diagnosed fuel argP bodyP retType P r P' :
  parseFunctionSignature fuel argP bodyP retType P = Done r P' ->
  Diags P `prefix_of` Diags P' /\
  (r.1.1.1 = true -> length (Diags P) < length (Diags P')).
Proof.
  apply (parseFunctionSignature_logs parseExpr_logs parseTypeAnnotation_logs
           parseType_logs).
Qed.

End ExtrasWithLoggingParsers.

Lemma lenient_parseExpr_logs d P :
  logged (fun r => r = None) P
    (Demo.demoParseExpr d P).1 (Demo.demoParseExpr d P).2.
Proof.
  unfold Demo.demoParseExpr.
  destruct (Token_is (Tok P) Demo.literal); cbn.
  - split; [done|discriminate].
  - split; cbn; [now apply prefix_app_r|].
    intros _. rewrite length_app. cbn. lia.
Qed.

Lemma lenient_parseAnyType_logs P :
  logged (fun r => r = None) P
    (Lenient.parseAnyType P).1 (Lenient.parseAnyType P).2.
Proof. split; [done|discriminate]. Qed.

Section SelectorHead.
Context {sema : Sema} {collab : Collaborators}.

Lemma checkSelectorName_Done argPattern names P :
  exists names' P1,
    checkSelectorName argPattern names P = Done names' P1 /\
    Toks P1 = Toks P /\
    exists ds, Diags P1 = Diags P ++ ds.
Proof.
  unfold checkSelectorName.
  destruct argPattern as [|decl| | |];
    try (eexists _, _; split; [reflexivity|]; split; [done|];
         exists []; now rewrite app_nil_r).
  destruct (names !! _) as [prev|]; eexists _, _;
    (split; [reflexivity|]); (split; [done|]).
  - now eexists [_].
  - exists []. now rewrite app_nil_r.
Qed.

Lemma Tok_same_Toks P Q : Toks P = Toks Q -> Tok P = Tok Q.
Proof. unfold Tok. now intros ->. Qed.

Lemma parseSelectorArgumentBody_without_paren fuel argPattern st Q :
  Token_is (Tok Q) l_paren = false ->
  parseSelectorArgumentBody fuel argPattern st Q =
    Done (true, st)
      (emit (Diag (getTokLoc (Tok Q)) func_selector_without_paren) Q).
Proof.
  intros H. unfold parseSelectorArgumentBody, bind, getTok, Token_isNot.
  now rewrite H.
Qed.

Lemma parseSelectorArgumentBody_empty_parens fuel argPattern st Q :
  Token_is (Tok Q) l_paren = true ->
  Token_is (Tok (advance Q)) r_paren = true ->
  parseSelectorArgumentBody fuel argPattern st Q =
    Done (true, st)
      (emit (Diag (getTokLoc (Tok (advance Q)))
               func_selector_with_not_one_argument) (advance Q)).
Proof.
  intros Hlp Hrp.
  unfold parseSelectorArgumentBody, bind, getTok, Token_isNot, consumeToken.
  rewrite Hlp. cbn. now rewrite Hrp.
Qed.

(** X13: a selector name must be followed by '(' and one pattern.  When the
    token after the name is not '(', the clause fails with
    func_selector_without_paren at that token, having consumed the name
    only; when the name is followed by "()", it fails with
    func_selector_with_not_one_argument at the ')', which is left in the
    stream.  Neither failure changes the element lists. *)
Theorem selector_clause_needs_one_pattern fuel st P :
  Token_is (Tok P) identifier = true ->
  (Token_is (Tok (advance P)) l_paren = false ->
   exists st' P' ds,
     parseSelectorArgument fuel st P = Done (true, st') P' /\
     argElts st' = argElts st /\ bodyElts st' = bodyElts st /\
     Toks P' = Toks (advance P) /\
     Diags P' =
       Diags P ++ ds ++
       [Diag (getTokLoc (Tok (advance P))) func_selector_without_paren]) /\
  (Token_is (Tok (advance P)) l_paren = true ->
   Token_is (Tok (advance (advance P))) r_paren = true ->
   exists st' P' ds,
     parseSelectorArgument fuel st P = Done (true, st') P' /\
     argElts st' = argElts st /\ bodyElts st' = bodyElts st /\
     Toks P' = Toks (advance (advance P)) /\
     Diags P' =
       Diags P ++ ds ++
       [Diag (getTokLoc (Tok (advance (advance P))))
          func_selector_with_not_one_argument]).
Proof.
  intros Hid. unfold parseSelectorArgument.
  destruct (parsePatternIdentifier_Some P Hid) as (p & Hp).
  rewrite (bind_Done _ _ _ _ _ Hp).
  destruct (checkSelectorName_Done p (selectorNames st) (advance P))
    as (names & P1 & Hcheck & HToks & ds & HDiags).
  rewrite (bind_Done _ _ _ _ _ Hcheck).
  pose proof (Tok_same_Toks _ _ HToks) as HTok.
  assert (HTok2 : Tok (advance P1) = Tok (advance (advance P))).
  { apply Tok_same_Toks. cbn. now rewrite HToks. }
  split.
  - intros Hlp. rewrite <- HTok in Hlp.
    rewrite (parseSelectorArgumentBody_without_paren _ _ _ _ Hlp).
    eexists _, _, ds. split; [reflexivity|]. cbn.
    rewrite HDiags, HTok, <- app_assoc. now destruct st.
  - intros Hlp Hrp. rewrite <- HTok in Hlp. rewrite <- HTok2 in Hrp.
    rewrite (parseSelectorArgumentBody_empty_parens _ _ _ _ Hlp Hrp).
    eexists _, _, ds. split; [reflexivity|]. cbn.
    rewrite HDiags, HToks, HTok2, <- app_assoc. now destruct st.
Qed.

End SelectorHead.

(** * The properties at concrete inputs

    Each statement above is applied to a token stream, with the concrete
    collaborators of [Demo]. *)

Import Demo.

(** The element [x = 1] where initializers are forbidden, alone and as the
    element of the inner tuple of [((x = 1))]: it comes back without
    initializer. *)
Lemma C1_forbidden_initializer_witness :
  parsePatternTuple 2 true
    (start [LPAREN; LPAREN; ident "x"; EQUAL; lit "1"; RPAREN; RPAREN]) =
    Done (Some (ParenPattern 1
                  (TuplePattern 2
                     [mkTuplePatternElt (NamedPattern (mkVarDecl 3 "x"))
                        None None] 6) 7))
         (mkParser [] [Diag 4 non_func_decl_pattern_init]) /\
  parsePatternTupleElement 0 false (start [ident "x"; EQUAL; lit "1"]) =
    Done (Some (mkTuplePatternElt (NamedPattern (mkVarDecl 1 "x")) None None))
         (mkParser [] [Diag 2 non_func_decl_pattern_init]) /\
  getInit (mkTuplePatternElt (NamedPattern (mkVarDecl 1 "x")) None None) = None.
Proof.
  split; [reflexivity|]. split; [reflexivity|].
  exact (C1_forbidden_initializer_is_dropped 0
           (start [ident "x"; EQUAL; lit "1"]) _ _ eq_refl).
Defined.

(** The element [x = 1 ...] where initializers are allowed. *)
Lemma C6_ellipsis_after_initializer_witness :
  parsePatternTupleElement 0 true
    (start [ident "x"; EQUAL; lit "1"; ELLIPSIS]) =
    Done (Some (mkTuplePatternElt (NamedPattern (mkVarDecl 1 "x"))
                  (Some "1") None))
         (mkParser [] [Diag 4 tuple_ellipsis_init]).
Proof.
  exact (proj1 (C6_ellipsis_after_initializer 0 true
                  (start [ident "x"; EQUAL; lit "1"; ELLIPSIS])
                  (NamedPattern (mkVarDecl 1 "x"))
                  (mkParser (lexFrom 2 [EQUAL; lit "1"; ELLIPSIS]) [])
                  "1"
                  (mkParser (lexFrom 4 [ELLIPSIS]) [])
                  eq_refl eq_refl eq_refl)).
Defined.

(** The element [x ...], alone and in the tuple [(x ...)]. *)
Lemma C7_ellipsis_on_untyped_pattern_witness :
  parsePatternTuple 1 true (start [LPAREN; ident "x"; ELLIPSIS; RPAREN]) =
    Done (Some (TuplePattern 1
                  [mkTuplePatternElt (NamedPattern (mkVarDecl 2 "x"))
                     None None] 4))
         (mkParser [] [Diag 3 untyped_pattern_ellipsis]) /\
  exists P',
    parsePatternTupleElement 0 true (start [ident "x"; ELLIPSIS]) =
      Done (Some (mkTuplePatternElt (NamedPattern (mkVarDecl 1 "x")) None None))
           P' /\
    Toks P' = [] /\
    Diags P' = [Diag 2 untyped_pattern_ellipsis].
Proof.
  split; [reflexivity|].
  refine (C7_ellipsis_on_untyped_pattern 0 true
           (start [ident "x"; ELLIPSIS])
           (NamedPattern (mkVarDecl 1 "x"))
           (mkParser (lexFrom 2 [ELLIPSIS]) [])
           None
           (mkParser (lexFrom 2 [ELLIPSIS]) [])
           eq_refl _ eq_refl eq_refl).
  intros sub ty. discriminate.
Defined.

(** The element [xs : Int ...]. *)
Lemma C8_vararg_base_type_witness :
  parsePatternTupleElement 0 true
    (start [ident "xs"; COLON; ident "Int"; ELLIPSIS]) =
    Done (Some (mkTuplePatternElt
                  (TypedPattern (NamedPattern (mkVarDecl 1 "xs"))
                     (mkTypeLoc (SliceTy (NamedTy "Int")) (3, 3)))
                  None (Some (NamedTy "Int"))))
         (mkParser [] []) /\
  exists sub declared P1,
    parsePattern 0 (start [ident "xs"; COLON; ident "Int"; ELLIPSIS])
      = Done (Some (TypedPattern sub declared)) P1 /\
    NamedTy "Int" = getType declared /\
    TypedPattern (NamedPattern (mkVarDecl 1 "xs"))
      (mkTypeLoc (SliceTy (NamedTy "Int")) (3, 3)) =
      TypedPattern sub
        (mkTypeLoc (ArraySliceType_get (getType declared))
           (getSourceRange declared)).
Proof.
  split; [reflexivity|].
  exact (C8_vararg_base_type 0 true
           (start [ident "xs"; COLON; ident "Int"; ELLIPSIS])
           _ _ (NamedTy "Int") eq_refl eq_refl).
Defined.

(** The keyword [func] and the comma as leading tokens. *)
Lemma C9_atom_failures_witness :
  parsePatternAtom 0 (start [keyword "func"; ident "x"]) =
    Done None (mkParser (lexFrom 2 [ident "x"])
                 [Diag 1 expected_pattern_is_keyword]) /\
  parsePatternAtom 0 (start [COMMA; ident "x"]) =
    Done None (mkParser (lexFrom 1 [COMMA; ident "x"])
                 [Diag 1 expected_pattern]).
Proof.
  split.
  - exact (proj1 (proj1 (C9_atom_failures 0
                           (start [keyword "func"; ident "x"]))
                    "func" eq_refl)).
  - refine (proj1 (proj2 (C9_atom_failures 0 (start [COMMA; ident "x"]))
                     _ _ _)); cbn; intros; discriminate.
Defined.

(** The elements [xs : Int ...] and [((_ : Int)) ...]. *)
Lemma C10_vararg_needs_outermost_typed_witness :
  (exists sub tl P1,
     parsePattern 0 (start [ident "xs"; COLON; ident "Int"; ELLIPSIS])
       = Done (Some (TypedPattern sub tl)) P1) /\
  parsePatternTupleElement 3 true
    (start [LPAREN; LPAREN; ident "_"; COLON; ident "Int"; RPAREN; RPAREN;
            ELLIPSIS]) =
    Done (Some (mkTuplePatternElt
                  (ParenPattern 1
                     (ParenPattern 2
                        (TypedPattern (AnyPattern 3)
                           (mkTypeLoc (NamedTy "Int") (5, 5))) 6) 7)
                  None None))
         (mkParser [] [Diag 8 untyped_pattern_ellipsis]) /\
  getBoundName
    (ParenPattern 1
       (ParenPattern 2
          (TypedPattern (AnyPattern 3) (mkTypeLoc (NamedTy "Int") (5, 5))) 6)
       7) = "".
Proof.
  split.
  - exact (proj1 (C10_vararg_needs_outermost_typed 0 true
                    (start [ident "xs"; COLON; ident "Int"; ELLIPSIS]))
             _ _ eq_refl eq_refl).
  - exact (proj2 (C10_vararg_needs_outermost_typed 3 true
                    (start [LPAREN; LPAREN; ident "_"; COLON; ident "Int";
                            RPAREN; RPAREN; ELLIPSIS]))
             1 _ 7
             (mkParser (lexFrom 8 [ELLIPSIS]) [])
             (mkParser (lexFrom 8 [ELLIPSIS]) [])
             eq_refl eq_refl eq_refl).
Defined.

(** The tuples [(x)], [(_ : Int)] and [()]. *)
Lemma C2_paren_or_tuple_witness :
  (exists pat,
     parsePatternTuple 1 true (start [LPAREN; ident "x"; RPAREN]) =
       Done (Some pat) (mkParser [] []) /\
     pat = TuplePattern 1
             [mkTuplePatternElt (NamedPattern (mkVarDecl 2 "x")) None None]
             3) /\
  (exists pat,
     parsePatternTuple 1 true
       (start [LPAREN; ident "_"; COLON; ident "Int"; RPAREN]) =
       Done (Some pat) (mkParser [] []) /\
     pat = ParenPattern 1
             (TypedPattern (AnyPattern 2) (mkTypeLoc (NamedTy "Int") (4, 4)))
             5) /\
  parsePatternTuple 0 true (start [LPAREN; RPAREN]) =
    Done (Some (TuplePattern 1 [] 2)) (mkParser [] []).
Proof.
  split; [|split].
  - eexists. split; [reflexivity|].
    destruct (proj1 (@C2_paren_or_tuple demoSema demoCollaborators 1 true
                       (start [LPAREN; ident "x"; RPAREN]))
                (TuplePattern 1
                   [mkTuplePatternElt (NamedPattern (mkVarDecl 2 "x"))
                      None None] 3)
                (mkParser [] []) eq_refl)
      as (elts & RPLoc & Helts & _ & _ & _ & _ & Hnamed).
    vm_compute in Helts. injection Helts as <- <-.
    apply (Hnamed _ eq_refl). discriminate.
  - eexists. split; [reflexivity|].
    destruct (proj1 (@C2_paren_or_tuple demoSema demoCollaborators 1 true
                       (start [LPAREN; ident "_"; COLON; ident "Int"; RPAREN]))
                (ParenPattern 1
                   (TypedPattern (AnyPattern 2)
                      (@mkTypeLoc demoSema (NamedTy "Int") (4, 4))) 5)
                (mkParser [] []) eq_refl)
      as (elts & RPLoc & Helts & [_ Hsingle] & _).
    vm_compute in Helts. injection Helts as <- <-.
    destruct Hsingle as (e & [= <-] & Hpat); [|exact Hpat].
    eexists. repeat split; reflexivity.
  - exact (proj2 (C2_paren_or_tuple 0 true (start [LPAREN; RPAREN]))
             eq_refl eq_refl).
Defined.

(** The tuple [(xs : Int ..., y : Int)]: the run of its two elements gives
    the result of the parse, with the diagnostic and the demoted [xs]. *)
Lemma C3_vararg_only_last_witness :
  parsePatternTuple 2 true
    (start [LPAREN; ident "xs"; COLON; ident "Int"; ELLIPSIS; COMMA;
            ident "y"; COLON; ident "Int"; RPAREN]) =
    Done (Some (TuplePattern 1
            [mkTuplePatternElt
               (TypedPattern (NamedPattern (mkVarDecl 2 "xs"))
                  (mkTypeLoc (SliceTy (NamedTy "Int")) (4, 4)))
               None None;
             mkTuplePatternElt
               (TypedPattern (NamedPattern (mkVarDecl 7 "y"))
                  (mkTypeLoc (NamedTy "Int") (9, 9)))
               None None] 10))
         (mkParser [] [Diag 2 ellipsis_pattern_not_at_end]) /\
  addTupleElement (parsePatternAtom 0) true
    [mkTuplePatternElt
       (TypedPattern (NamedPattern (mkVarDecl 2 "xs"))
          (mkTypeLoc (SliceTy (NamedTy "Int")) (4, 4)))
       None (Some (NamedTy "Int"))]
    (mkParser (lexFrom 7 [ident "y"; COLON; ident "Int"; RPAREN]) []) =
    Done (false,
          [mkTuplePatternElt
             (TypedPattern (NamedPattern (mkVarDecl 2 "xs"))
                (mkTypeLoc (SliceTy (NamedTy "Int")) (4, 4)))
             None None;
           mkTuplePatternElt
             (TypedPattern (NamedPattern (mkVarDecl 7 "y"))
                (mkTypeLoc (NamedTy "Int") (9, 9)))
             None None])
         (mkParser (lexFrom 10 [RPAREN])
            [Diag 2 ellipsis_pattern_not_at_end]).
Proof.
  split.
  - apply (proj2 (proj1 (@C3_vararg_only_last demoSema demoCollaborators 2 true
             (start [LPAREN; ident "xs"; COLON; ident "Int"; ELLIPSIS; COMMA;
                     ident "y"; COLON; ident "Int"; RPAREN])) _ _)).
    split; [reflexivity|].
    exists 2, [mkTuplePatternElt
               (TypedPattern (NamedPattern (mkVarDecl 2 "xs"))
                  (@mkTypeLoc demoSema (SliceTy (NamedTy "Int")) (4, 4)))
               None None;
             mkTuplePatternElt
               (TypedPattern (NamedPattern (mkVarDecl 7 "y"))
                  (@mkTypeLoc demoSema (NamedTy "Int") (9, 9)))
               None None], 10.
    split; [lia|]. split; [|reflexivity]. right. split; [reflexivity|].
    refine (@tupleSteps_more demoSema demoCollaborators 2 true 1 []
              (mkParser (lexFrom 2 [ident "xs"; COLON; ident "Int"; ELLIPSIS;
                                    COMMA; ident "y"; COLON; ident "Int";
                                    RPAREN]) [])
              (mkTuplePatternElt
                 (TypedPattern (NamedPattern (mkVarDecl 2 "xs"))
                    (mkTypeLoc (SliceTy (NamedTy "Int")) (4, 4)))
                 None (Some (NamedTy "Int")))
              (mkParser (lexFrom 6 [COMMA; ident "y"; COLON; ident "Int";
                                    RPAREN]) [])
              _ _ _ eq_refl eq_refl _).
    exact (@tupleSteps_last demoSema demoCollaborators 2 true
             [mkTuplePatternElt
                (TypedPattern (NamedPattern (mkVarDecl 2 "xs"))
                   (mkTypeLoc (SliceTy (NamedTy "Int")) (4, 4)))
                None (Some (NamedTy "Int"))]
             (mkParser (lexFrom 7 [ident "y"; COLON; ident "Int"; RPAREN]) [])
             (mkTuplePatternElt
                (TypedPattern (NamedPattern (mkVarDecl 7 "y"))
                   (mkTypeLoc (NamedTy "Int") (9, 9)))
                None None)
             (mkParser (lexFrom 10 [RPAREN]) [])
             eq_refl eq_refl eq_refl).
  - exact (proj1 (proj2 (proj2 (@C3_vararg_only_last demoSema demoCollaborators
             0 true
             (mkParser (lexFrom 7 [ident "y"; COLON; ident "Int"; RPAREN]) []))))
             [mkTuplePatternElt
                (TypedPattern (NamedPattern (mkVarDecl 2 "xs"))
                   (mkTypeLoc (SliceTy (NamedTy "Int")) (4, 4)))
                None (Some (NamedTy "Int"))]
             _ _ _ eq_refl eq_refl eq_refl).
Defined.

(** The signatures [(_ : Int) to(b : Int)], [(a : Int = 1) to(b : Int)]
    and [() to(b : Int)], each from the state after its first clause. *)
Lemma C4_first_selector_clause_witness :
  (exists argP' bodyP' P' argRest bodyRest rp',
     parseSelectorFunctionArguments 1 [] []
       (ParenPattern 1
          (TypedPattern (AnyPattern 2) (mkTypeLoc (NamedTy "Int") (4, 4))) 5)
       (mkParser
          (lexFrom 6 [ident "to"; LPAREN; ident "b"; COLON; ident "Int";
                      RPAREN]) [])
       = Done (false, argP', bodyP') P' /\
     argP' =
       [] ++ [TuplePattern 1
          (mkTuplePatternElt
             (TypedPattern (AnyPattern 1) (mkTypeLoc (NamedTy "Int") (4, 4)))
             None None :: argRest) rp'] /\
     bodyP' =
       [] ++ [TuplePattern 1
          (mkTuplePatternElt
             (TypedPattern (AnyPattern 2) (mkTypeLoc (NamedTy "Int") (4, 4)))
             None None :: bodyRest) rp']) /\
  (exists argP' bodyP' P' argRest bodyRest rp',
     parseSelectorFunctionArguments 1 [] []
       (TuplePattern 1
          [mkTuplePatternElt
             (TypedPattern (NamedPattern (mkVarDecl 2 "a"))
                (mkTypeLoc (NamedTy "Int") (4, 4)))
             (Some "1") None] 7)
       (mkParser
          (lexFrom 8 [ident "to"; LPAREN; ident "b"; COLON; ident "Int";
                      RPAREN]) [])
       = Done (false, argP', bodyP') P' /\
     argP' =
       [] ++ [TuplePattern NoLoc
          (mkTuplePatternElt
             (TypedPattern (AnyPattern 1) (mkTypeLoc (NamedTy "Int") (4, 4)))
             (Some "1") None :: argRest) rp'] /\
     bodyP' =
       [] ++ [TuplePattern NoLoc
          (mkTuplePatternElt
             (TypedPattern (NamedPattern (mkVarDecl 2 "a"))
                (mkTypeLoc (NamedTy "Int") (4, 4)))
             (Some "1") None :: bodyRest) rp']) /\
  parseSelectorFunctionArguments 1 [] [] (TuplePattern 1 [] 2)
    (mkParser (lexFrom 3 [ident "to"; LPAREN; ident "b"; RPAREN]) []) =
    Done (true, [], [])
      (mkParser (lexFrom 3 [ident "to"; LPAREN; ident "b"; RPAREN])
         [Diag 3 func_selector_with_not_one_argument]).
Proof.
  split; [|split].
  - destruct (proj2 (proj1 (@C4_first_selector_clause demoSema
                              demoCollaborators 1 [] []
                              (mkParser
                                 (lexFrom 6 [ident "to"; LPAREN; ident "b";
                                             COLON; ident "Int"; RPAREN]) []))
                       1
                       (TypedPattern (AnyPattern 2)
                          (@mkTypeLoc demoSema (NamedTy "Int") (4, 4)))
                       5)
                _ _ _ eq_refl)
      as (argRest & bodyRest & rp' & Ha & Hb).
    eexists _, _, _, argRest, bodyRest, rp'.
    split; [reflexivity|]. split; [exact Ha|exact Hb].
  - destruct (proj2 (proj1 (proj2 (@C4_first_selector_clause demoSema
                              demoCollaborators 1 [] []
                              (mkParser
                                 (lexFrom 8 [ident "to"; LPAREN; ident "b";
                                             COLON; ident "Int"; RPAREN]) [])))
                       1
                       (@mkTuplePatternElt demoSema _
                          (TypedPattern (NamedPattern (mkVarDecl 2 "a"))
                             (@mkTypeLoc demoSema (NamedTy "Int") (4, 4)))
                          (Some "1") None)
                       7)
                _ _ _ eq_refl)
      as (argRest & bodyRest & rp' & Ha & Hb).
    eexists _, _, _, argRest, bodyRest, rp'.
    split; [reflexivity|]. split; [exact Ha|exact Hb].
  - refine (proj2 (proj2 (@C4_first_selector_clause demoSema
                            demoCollaborators 1 [] []
                            (mkParser
                               (lexFrom 3 [ident "to"; LPAREN; ident "b";
                                           RPAREN]) [])))
              1 [] 2 _).
    cbn. lia.
Defined.

(** The clause [to(c)] when the table already binds [to]. *)
Lemma C5_duplicate_selector_name_witness :
  parseSelectorArgument 0
    (mkSelectorState [] [] {["to" := mkVarDecl 4 "to"]} NoLoc)
    (mkParser (lexFrom 8 [ident "to"; LPAREN; ident "c"; RPAREN]) []) =
    Done (false,
          mkSelectorState
            [mkTuplePatternElt (NamedPattern (mkVarDecl 8 "to")) None None]
            [mkTuplePatternElt (NamedPattern (mkVarDecl 10 "c")) None None]
            {["to" := mkVarDecl 4 "to"]} 11)
         (mkParser [] [Redefinition (mkVarDecl 4 "to") (mkVarDecl 8 "to")]) /\
  Diags
    (emit (Redefinition (mkVarDecl 4 "to") (mkVarDecl 8 "to"))
       (advance
          (mkParser (lexFrom 8 [ident "to"; LPAREN; ident "c"; RPAREN]) [])))
    = [Redefinition (mkVarDecl 4 "to") (mkVarDecl 8 "to")].
Proof.
  split; [|reflexivity].
  rewrite (proj1 (proj1 (@C5_duplicate_selector_name demoSema
                           demoCollaborators)
                    0
                    (mkSelectorState [] [] {["to" := mkVarDecl 4 "to"]} NoLoc)
                    (mkParser
                       (lexFrom 8 [ident "to"; LPAREN; ident "c"; RPAREN]) [])
                    (mkVarDecl 4 "to")
                    eq_refl ltac:(discriminate) eq_refl)).
  reflexivity.
Defined.

(** The signature [(a : Int) to(a : Int)]: the selector name is [to], and
    the name [a] inside the second clause is not looked up in the
    selector-name table, so no redefinition is reported. *)
Example selector_inner_names_are_not_checked :
  exists argP bodyP,
    parseFunctionArguments 2 [] []
      (start [LPAREN; ident "a"; COLON; ident "Int"; RPAREN;
              ident "to"; LPAREN; ident "a"; COLON; ident "Int"; RPAREN]) =
      Done (false, argP, bodyP) (mkParser [] []).
Proof. eexists _, _. reflexivity. Qed.

(** ** The further properties at concrete inputs *)

Import Samples.

Lemma curried_clauses_are_shared_witness :
  exists r argP' bodyP' P' clauses,
    parseCurriedFunctionArguments 3 [] [] twoClauses
      = Done (r, argP', bodyP') P' /\
    argP' = [] ++ clauses /\ bodyP' = [] ++ clauses /\
    Forall isParenOrTuple clauses.
Proof.
  destruct (@curried_clauses_are_shared demoSema demoCollaborators
              3 [] [] twoClauses _ _ _ _ eq_refl)
    as (clauses & Ha & Hb & Hall & _).
  eexists _, _, _, _, clauses. split; [reflexivity|]. auto.
Defined.

Lemma function_arguments_only_append_witness :
  exists r argP' bodyP' P' newArg newBody,
    parseFunctionArguments 3 [] [] curriedSignature
      = Done (r, argP', bodyP') P' /\
    argP' = [] ++ newArg /\ bodyP' = [] ++ newBody /\
    length newArg = length newBody.
Proof.
  destruct (@function_arguments_only_append demoSema demoCollaborators
              3 [] [] curriedSignature _ _ _ _ eq_refl)
    as (newArg & newBody & Ha & Hb & Hlen & _).
  eexists _, _, _, _, newArg, newBody. split; [reflexivity|]. auto.
Defined.

Lemma selector_trees_are_parallel_witness :
  exists argP' bodyP' P' lp a b argRest bodyRest rp',
    parseSelectorFunctionArguments 1 [] [] firstClause afterFirstClause
      = Done (false, argP', bodyP') P' /\
    argP' = [] ++ [TuplePattern lp (a :: argRest) rp'] /\
    bodyP' = [] ++ [TuplePattern lp (b :: bodyRest) rp'] /\
    Forall2 parallel (a :: argRest) (b :: bodyRest).
Proof.
  destruct (@selector_trees_are_parallel demoSema demoCollaborators
              1 [] [] firstClause afterFirstClause _ _ _ eq_refl)
    as (lp & a & b & ra & rb & rp' & Ha & Hb & Hpar & _).
  eexists _, _, _, lp, a, b, ra, rb, rp'. split; [reflexivity|]. auto.
Defined.

Lemma wellKeyed_empty : wellKeyed ∅.
Proof. intros id decl. rewrite lookup_empty. discriminate. Qed.

Lemma twoSelectors_parse :
  parseSelectorArguments 2 (@mkSelectorState demoSema [] [] ∅ NoLoc)
    twoSelectors = Done (false, twoSelectorsState) (mkParser [] []).
Proof. vm_compute. reflexivity. Qed.

Lemma selector_table_only_grows_witness :
  (∅ : gmap string VarDecl) ⊆ selectorNames twoSelectorsState /\
  wellKeyed (selectorNames twoSelectorsState).
Proof.
  destruct (@selector_table_only_grows demoSema demoCollaborators
              2 (@mkSelectorState demoSema [] [] ∅ NoLoc) twoSelectors
              _ _ _ twoSelectors_parse)
    as [Hsub Hwk].
  split; [exact Hsub|]. exact (Hwk wellKeyed_empty).
Defined.

Lemma signature_hits_no_assertion_witness :
  parseFunctionSignature 1 [] [] None (start [LPAREN; RPAREN]) <> Unreachable.
Proof.
  exact (@signature_hits_no_assertion demoSema demoCollaborators
           1 [] [] None (start [LPAREN; RPAREN]) eq_refl).
Defined.

Lemma pattern_parse_starts_at_start_token_witness :
  isStartOfPattern (Tok (start [ident "x"])) = true /\
  exists P', parsePattern 0 (start [COMMA; ident "x"]) = Done None P'.
Proof.
  split.
  - exact (proj1 (@pattern_parse_starts_at_start_token demoSema
                    demoCollaborators 0 (start [ident "x"]))
             _ _ eq_refl).
  - exact (proj2 (@pattern_parse_starts_at_start_token demoSema
                    demoCollaborators 0 (start [COMMA; ident "x"]))
             eq_refl).
Defined.

Lemma identifier_pattern_bound_name_witness :
  getBoundName
    (TypedPattern (NamedPattern (mkVarDecl 1 "x"))
       (@mkTypeLoc demoSema (NamedTy "Int") (3, 3))) = "x".
Proof.
  exact (@identifier_pattern_bound_name demoSema demoCollaborators 0
           (start [ident "x"; COLON; ident "Int"]) _ _ eq_refl eq_refl).
Defined.

Lemma tuple_vararg_fields_are_wellformed_witness :
  Forall wfVararg
    [mkTuplePatternElt
       (TypedPattern (NamedPattern (mkVarDecl 2 "xs"))
          (@mkTypeLoc demoSema (SliceTy (NamedTy "Int")) (4, 4)))
       None (Some (NamedTy "Int"))].
Proof.
  exact (@tuple_vararg_fields_are_wellformed demoSema demoCollaborators
           1 true (start [LPAREN; ident "xs"; COLON; ident "Int"; ELLIPSIS;
                          RPAREN])
           1 _ 6 (mkParser [] []) eq_refl).
Defined.

Lemma pattern_shapes_witness :
  isParenOrTuple
    (@TuplePattern demoSema 1
       [mkTuplePatternElt (NamedPattern (mkVarDecl 2 "x")) None None] 3) /\
  typeOf (@NamedPattern demoSema (mkVarDecl 1 "x")) = None /\
  typeOf (@NamedPattern demoSema (mkVarDecl 1 "x")) = None.
Proof.
  split; [|split].
  - exact (proj1 (@pattern_shapes demoSema demoCollaborators 1
                    (start [LPAREN; ident "x"; RPAREN]))
             true _ (mkParser [] []) eq_refl).
  - exact (proj1 (proj2 (@pattern_shapes demoSema demoCollaborators 0
                           (start [ident "x"])))
             _ (mkParser [] []) eq_refl).
  - exact (proj2 (proj2 (@pattern_shapes demoSema demoCollaborators 0
                           (start [ident "x"; COLON; ident "Int"])))
             _ (@mkTypeLoc demoSema (NamedTy "Int") (3, 3))
             (mkParser [] []) eq_refl).
Defined.

Lemma successful_pattern_parse_consumes_witness :
  remaining (mkParser [] []) <
  remaining (start [ident "x"; COLON; ident "Int"]).
Proof.
  exact (proj1 (@successful_pattern_parse_consumes demoSema demoCollaborators
                  demoParseExpr_forward demoParseType_forward 0
                  (start [ident "x"; COLON; ident "Int"]))
           _ (mkParser [] []) eq_refl).
Defined.

Lemma signature_parse_terminates_witness :
  exists r P',
    parseFunctionSignature 3 [] [] None (start [LPAREN; ident "a"])
      = Done r P'.
Proof.
  refine (@signature_parse_terminates demoSema demoCollaborators
            demoParseExpr_forward demoParseType_forward 3 [] [] None
            (start [LPAREN; ident "a"]) eq_refl _).
  cbn. lia.
Defined.

Lemma failed_signature_is_diagnosed_witness :
  exists r P',
    @parseFunctionSignature demoSema Lenient.lenientCollaborators
      2 [] [] None (start [LPAREN; ident "a"]) = Done r P' /\
    r.1.1.1 = true /\
    length (Diags (start [LPAREN; ident "a"])) < length (Diags P').
Proof.
  eexists _, _. split; [reflexivity|]. split; [reflexivity|].
  refine (proj2 (@failed_signature_is_diagnosed demoSema
                   Lenient.lenientCollaborators
                   lenient_parseExpr_logs lenient_parseAnyType_logs
                   lenient_parseAnyType_logs
                   2 [] [] None (start [LPAREN; ident "a"]) _ _ eq_refl) _).
  reflexivity.
Defined.

Lemma selector_clause_needs_one_pattern_witness :
  (exists st' P' ds,
     parseSelectorArgument 0 (@mkSelectorState demoSema [] [] ∅ NoLoc)
       (start [ident "to"; COMMA]) = Done (true, st') P' /\
     argElts st' = [] /\ bodyElts st' = [] /\
     Toks P' = lexFrom 2 [COMMA] /\
     Diags P' = [] ++ ds ++ [Diag 2 func_selector_without_paren]) /\
  (exists st' P' ds,
     parseSelectorArgument 0 (@mkSelectorState demoSema [] [] ∅ NoLoc)
       (start [ident "to"; LPAREN; RPAREN]) = Done (true, st') P' /\
     argElts st' = [] /\ bodyElts st' = [] /\
     Toks P' = lexFrom 3 [RPAREN] /\
     Diags P' = [] ++ ds ++ [Diag 3 func_selector_with_not_one_argument]).
Proof.
  split.
  - exact (proj1 (@selector_clause_needs_one_pattern demoSema
                    demoCollaborators 0
                    (@mkSelectorState demoSema [] [] ∅ NoLoc)
                    (start [ident "to"; COMMA]) eq_refl)
             eq_refl).
  - exact (proj2 (@selector_clause_needs_one_pattern demoSema
                    demoCollaborators 0
                    (@mkSelectorState demoSema [] [] ∅ NoLoc)
                    (start [ident "to"; LPAREN; RPAREN]) eq_refl)
             eq_refl eq_refl).
Defined.
